(** * order-pulse: scripts/fetch_hubspot_journeys.py

    A shallow embedding of the journey-mapping script and the properties
    of its roster filter, deal index, deal matching, per-tenant merge
    policies, best-deal selection, output ordering and date helpers.

    Conventions of the embedding.
    - Python [str] values are [string]s; the text handled here (e-mail
      addresses, deal names, stage codes, ISO timestamps) is taken to be
      in the ASCII range, where [str.lower], [str.strip] and [str.split]
      act character by character as written below.
    - A JSON property value of the CRM is [PNone] (null / absent) or
      [PStr s]; [truthy] is Python truthiness.
    - A [dict] is a [gmap]; a [defaultdict(list)] is a [gmap] to lists
      where a missing key reads as the empty list on append.
    - Code that can raise returns a [result]; [try ... except:] is
      [try_except]. *)

From Stdlib Require Import ZArith Lia Bool Ascii.
From Stdlib Require String.
From stdpp Require Import base option list gmap strings sorting pretty.

(* ================================================================== *)
(** * Part I. The embedding                                            *)
(* ================================================================== *)

(** ** Python string primitives *)

Module Py.

(** [c.lower()] on one ASCII character. *)
Definition lower_char (c : ascii) : ascii :=
  let n := nat_of_ascii c in
  if (65 <=? n)%nat && (n <=? 90)%nat then ascii_of_nat (n + 32) else c.

(** [s.lower()] *)
Fixpoint lower (s : string) : string :=
  match s with
  | "" => ""
  | String c s' => String (lower_char c) (lower s')
  end.

(** [c.isspace()] for ASCII: TAB, LF, VT, FF, CR, FS, GS, RS, US, SP. *)
Definition isspace (c : ascii) : bool :=
  let n := nat_of_ascii c in
  ((9 <=? n)%nat && (n <=? 13)%nat) || ((28 <=? n)%nat && (n <=? 32)%nat).

(** [s.lstrip()] *)
Fixpoint lstrip (s : string) : string :=
  match s with
  | "" => ""
  | String c s' => if isspace c then lstrip s' else s
  end.

(** [s.rstrip()] *)
Fixpoint rstrip (s : string) : string :=
  match s with
  | "" => ""
  | String c s' =>
      match rstrip s' with
      | "" => if isspace c then "" else String c ""
      | r => String c r
      end
  end.

(** [s.strip()] *)
Definition strip (s : string) : string := rstrip (lstrip s).

(** [s.startswith(p)] *)
Fixpoint startswith (p s : string) : bool :=
  match p, s with
  | "", _ => true
  | String a p', String b s' => if ascii_dec a b then startswith p' s' else false
  | String _ _, "" => false
  end.

(** [s.endswith(p)] *)
Fixpoint endswith (p s : string) : bool :=
  match s with
  | "" => if String.string_dec p "" then true else false
  | String _ s' => if String.string_dec p s then true else endswith p s'
  end.

(** [w in s] for two strings: substring test. *)
Fixpoint contains (w s : string) : bool :=
  startswith w s ||
  match s with
  | "" => false
  | String _ s' => contains w s'
  end.

(** [s.split(c)[0]] for a one-character separator: the text before the
    first [c], the whole string when there is none. *)
Fixpoint before_char (c : ascii) (s : string) : string :=
  match s with
  | "" => ""
  | String a s' => if ascii_dec a c then "" else String a (before_char c s')
  end.

(** [s.split()]: the maximal runs of non-whitespace characters. *)
Fixpoint split (s : string) : list string :=
  match s with
  | "" => []
  | String c s' =>
      if isspace c then split s'
      else match s' with
           | "" => [String c ""]
           | String c' _ =>
               if isspace c' then String c "" :: split s'
               else match split s' with
                    | w :: ws => String c w :: ws
                    | [] => [String c ""]
                    end
           end
  end.

(** [s.rsplit(sep, 1)[0]] when [sep in s]: the text before the last
    occurrence of [sep]; [None] when [sep] does not occur. *)
Fixpoint before_last (sep s : string) : option string :=
  match s with
  | "" => if startswith sep "" then Some "" else None
  | String c s' =>
      match before_last sep s' with
      | Some p => Some (String c p)
      | None => if startswith sep s then Some "" else None
      end
  end.

(** [s.replace(c, r)] for a one-character pattern. *)
Fixpoint replace_char (c : ascii) (r : string) (s : string) : string :=
  match s with
  | "" => ""
  | String a s' =>
      if ascii_dec a c then r +:+ replace_char c r s'
      else String a (replace_char c r s')
  end.

(** [s[:n]] *)
Definition slice_to (n : nat) (s : string) : string := String.substring 0 n s.

(** [len(s)] *)
Definition len (s : string) : nat := String.length s.

(** [a < b] on strings: lexicographic on code points. *)
Definition lt (a b : string) : bool := String.ltb a b.

(** JSON property values as the CRM returns them. *)
Inductive pyval := PNone | PStr (s : string).

(** Python truthiness of a property value. *)
Definition truthy (v : pyval) : bool :=
  match v with
  | PNone => false
  | PStr "" => false
  | PStr _ => true
  end.

(** [(v or "")] *)
Definition or_empty (v : pyval) : string :=
  match v with PNone => "" | PStr s => s end.

(** [p.get(k)] on a property dict. *)
Definition get (p : gmap string pyval) (k : string) : pyval :=
  default PNone (p !! k).

(** [p.get(k, dflt)] *)
Definition get_or (p : gmap string pyval) (k : string) (dflt : pyval) : pyval :=
  default dflt (p !! k).

(** Outcome of code that can raise. *)
Inductive exn := ValueError | TypeError.
Inductive result (A : Type) := Ok (a : A) | Raise (e : exn).
Arguments Ok {A} a.
Arguments Raise {A} e.

(** Sequencing: an exception skips the rest ([x ← m; k]). *)
Global Instance result_bind : MBind result := λ A B k m,
  match m with Ok a => k a | Raise e => Raise e end.

(** [try: body  except: handler] with a bare [except]. *)
Definition try_except {A} (body : result A) (handler : result A) : result A :=
  match body with Ok a => Ok a | Raise _ => handler end.

End Py.

Import Py.

(** ** Module constants *)

(** [API_TOKEN = os.environ.get("HUBSPOT_API_TOKEN", "")] *)
Definition API_TOKEN (environ : gmap string string) : string :=
  default "" (environ !! "HUBSPOT_API_TOKEN").

(** [BASE_URL] *)
Definition BASE_URL : string := "https://api.hubapi.com".

(** [STAGE_MAP]: stage code to label. *)
Definition STAGE_MAP : gmap string string :=
  list_to_map
    [ ("appointmentscheduled", "Prospect");
      ("1499838171", "Approached");
      ("qualifiedtobuy", "Lead");
      ("presentationscheduled", "Demo Scheduled");
      ("1955958510", "No-Show/Reschedule Demo");
      ("decisionmakerboughtin", "Demo Follow-Up");
      ("1955580622", "Budgetary quote sent");
      ("1559099077", "Payment Link Sent");
      ("1499827945", "Free Trial");
      ("1731122907", "Freemium");
      ("closedwon", "Closed Won");
      ("contractsent", "Ping Later");
      ("closedlost", "Closed Lost");
      ("1499784890", "Churn");
      ("1499784891", "Unlikely");
      ("1499827944", "On Hold");
      ("1718686448", "Internal+Friends and Family");
      ("2025131723", "Interested in a pilot") ].

(** [STAGE_MAP.get(code, dflt)] where [code] is a property value: a
    null code is not a key. *)
Definition stage_get (code : pyval) (dflt : pyval) : pyval :=
  match code with
  | PStr c => match STAGE_MAP !! c with Some l => PStr l | None => dflt end
  | PNone => dflt
  end.

(** ** Roster loader *)

(** A row of [csv.DictReader] over the roster. [Email] is the join key
    ([row["Email"]], always read); the other columns are read with
    [row.get(col, "")] and may be missing. *)
Record row := {
  Email : string;
  Name : option string;
  Tenant : option string;
  Created : option string
}.

(** The three [continue] tests of [load_cognito_users], on the stripped
    e-mail. First:
    [email.endswith("@arda.cards") or email.endswith("@arda.com")] *)
Definition skip_internal_domain (email : string) : bool :=
  endswith "@arda.cards" email || endswith "@arda.com" email.

(** [if "test" in email.lower() and "@" in email:
       if email.split("@")[0].lower().startswith("test"): continue] *)
Definition skip_test_account (email : string) : bool :=
  if contains "test" (lower email) && contains "@" email
  then startswith "test" (lower (before_char "@"%char email))
  else false.

(** [email.startswith("customer-success+")] *)
Definition skip_alias (email : string) : bool :=
  startswith "customer-success+" email.

(** The row is skipped by one of the three [continue]s. *)
Definition skipped (r : row) : bool :=
  let email := strip (Email r) in
  if skip_internal_domain email then true
  else if skip_test_account email then true
  else if skip_alias email then true
  else false.

(** [tenants[tenant].append(row)] on a [defaultdict(list)]. *)
Definition dd_append {V} (m : gmap string (list V)) (k : string) (v : V)
  : gmap string (list V) :=
  <[k := default [] (m !! k) ++ [v]]> m.

(** One iteration of the reader loop, on the state [(users, tenants)]. *)
Definition load_step (st : list row * gmap string (list row)) (r : row)
  : list row * gmap string (list row) :=
  let '(users, tenants) := st in
  if skipped r then st
  else
    let users := users ++ [r] in
    let tenant := default "" (Tenant r) in
    if negb (String.eqb tenant "") && negb (String.eqb tenant "None")
    then (users, dd_append tenants tenant r)
    else (users, tenants).

(** [load_cognito_users()], on the rows the reader yields:
    [(users, tenants)]. *)
Definition load_cognito_users (rows : list row)
  : list row * gmap string (list row) :=
  foldl load_step ([], ∅) rows.

(** ** CRM client: the authenticated GET and the paginated deal fetch *)

(** A deal as the CRM returns it under ["results"]: an object with an
    ["id"] and a ["properties"] dict, both always present ([d["id"]]
    and [d["properties"]] are read without a default), so
    [d.get("properties", {})] is [deal_properties d]. *)
Record deal := {
  deal_id : string;
  deal_properties : gmap string pyval
}.

(** A contact, of the same shape. *)
Record contact := {
  contact_id : string;
  contact_properties : gmap string pyval
}.

(** What [urllib.request.Request] carries once the headers are added. *)
Record request := {
  req_url : string;
  req_headers : list (string * string)
}.

(** The decoded body of a deal-list response: [data.get("results", [])]
    and [data.get("paging", {}).get("next", {}).get("after")]. *)
Record deals_page := {
  page_results : list deal;
  page_after : pyval
}.

(** The remote side: given the requests already sent and the current
    one, a decoded body, or [None] for an [HTTPError]. These are the
    two outcomes [hubspot_get] returns from; any other exception of
    [urlopen] or of the decoding is not caught, ends the run, and is no
    outcome here. *)
Definition network := list request → request → option deals_page.

(** [hubspot_get(endpoint, params)], threading the log of requests sent.
    [params] is the dict in insertion order. *)
Definition hubspot_get (environ : gmap string string) (net : network)
    (sent : list request) (endpoint : string) (params : list (string * string))
  : option deals_page * list request :=
  let url := BASE_URL +:+ endpoint in
  let url :=
    match params with
    | [] => url
    | _ => url +:+ "?" +:+
           String.concat "&" (map (λ kv, kv.1 +:+ "=" +:+ kv.2) params)
    end in
  let req := {| req_url := url;
                req_headers := [ ("Authorization", "Bearer " +:+ API_TOKEN environ);
                                 ("Content-Type", "application/json") ] |} in
  (net sent req, sent ++ [req]).

(** The [props] string of [fetch_all_deals]. *)
Definition deal_props : string :=
  "dealname,dealstage,pipeline,amount,closedate,createdate,hs_analytics_source,hubspot_owner_id".

(** The [while True] loop of [fetch_all_deals]; [fuel] bounds the number
    of pages, [None] in the first component means the loop is still
    running when the fuel is spent. *)
Fixpoint fetch_loop (fuel : nat) (environ : gmap string string) (net : network)
    (sent : list request) (after : pyval) (all_deals : list deal)
  : option (list deal) * list request :=
  match fuel with
  | O => (None, sent)
  | S fuel' =>
      let params :=
        [("limit", "100"); ("properties", deal_props)] ++
        (if truthy after then [("after", or_empty after)] else []) in
      let '(data, sent) := hubspot_get environ net sent "/crm/v3/objects/deals" params in
      match data with
      | None => (Some all_deals, sent)
      | Some pg =>
          let all_deals := all_deals ++ page_results pg in
          if truthy (page_after pg)
          then fetch_loop fuel' environ net sent (page_after pg) all_deals
          else (Some all_deals, sent)
      end
  end.

(** [fetch_all_deals()]: the deals fetched and the requests sent. *)
Definition fetch_all_deals (fuel : nat) (environ : gmap string string) (net : network)
  : option (list deal) * list request :=
  fetch_loop fuel environ net [] PNone [].

(** ** Deal index *)

(** [(d.get("properties", {}).get("dealname") or "")] *)
Definition dealname (d : deal) : string :=
  or_empty (get (deal_properties d) "dealname").

(** [dname.rsplit(" - ", 1)[0].strip().lower() if " - " in dname else dname.lower()]
    with [dname] the stripped deal name. *)
Definition company_part (d : deal) : string :=
  let dname := strip (dealname d) in
  if contains " - " dname
  then lower (strip (default dname (before_last " - " dname)))
  else lower dname.

(** The body of [for d in all_deals]. *)
Definition index_step (deal_index : gmap string (list deal)) (d : deal)
  : gmap string (list deal) :=
  let cp := company_part d in
  let deal_index := dd_append deal_index cp d in
  foldl (λ idx word, if (3 <? len word)%nat then dd_append idx word d else idx)
        deal_index (split cp).

(** [deal_index] once the loop over [all_deals] has run. *)
Definition build_index (all_deals : list deal) : gmap string (list deal) :=
  foldl index_step ∅ all_deals.

(** ** Deal matching *)

(** [if d["id"] not in seen_ids: seen_ids.add(d["id"]); matching_deals.append(d)] *)
Definition add_unseen (st : gset string * list deal) (d : deal)
  : gset string * list deal :=
  if decide (deal_id d ∈ st.1) then st
  else ({[deal_id d]} ∪ st.1, st.2 ++ [d]).

(** [len(w) > 3] *)
Definition long_word (w : string) : bool := (3 <? len w)%nat.

(** The relevance test of the keyword pass:
    [cn_lower in dname or any(w in dname for w in cn_lower.split() if len(w) > 3)] *)
Definition relevant (cn_lower : string) (d : deal) : bool :=
  let dname := lower (dealname d) in
  contains cn_lower dname ||
  existsb (λ w, contains w dname) (filter (λ w, long_word w = true) (split cn_lower)).

(** The keyword pass, entered when the exact pass matched nothing. *)
Definition keyword_pass (deal_index : gmap string (list deal)) (cn_lower : string)
    (st : gset string * list deal) : gset string * list deal :=
  foldl (λ st word,
           if long_word word then
             match deal_index !! word with
             | Some bucket =>
                 foldl (λ st d, if relevant cn_lower d then add_unseen st d else st)
                       st bucket
             | None => st
             end
           else st)
        st (split cn_lower).

(** Lines "Find matching deals" of the per-tenant loop: the final
    [matching_deals]. *)
Definition match_deals (deal_index : gmap string (list deal)) (company_name : pyval)
  : list deal :=
  let cn_lower := lower (or_empty company_name) in
  let st : gset string * list deal := (∅, []) in
  let st :=
    match deal_index !! cn_lower with
    | Some bucket => foldl add_unseen st bucket
    | None => st
    end in
  let st :=
    match st.2 with
    | [] => keyword_pass deal_index cn_lower st
    | _ => st
    end in
  st.2.

(** ** Per-tenant merges over the matched contacts *)

(** A [for] loop that keeps the first truthy value of property [k] and
    breaks. *)
Fixpoint first_truthy (k : string) (dflt : pyval) (cs : list contact) : pyval :=
  match cs with
  | [] => dflt
  | hc :: cs' =>
      let v := get (contact_properties hc) k in
      if truthy v then v else first_truthy k dflt cs'
  end.

(** A [for] loop that overwrites the variable with every truthy value of
    property [k]. *)
Definition last_truthy (k : string) (cs : list contact) : pyval :=
  foldl (λ acc hc,
           let v := get (contact_properties hc) k in
           if truthy v then v else acc)
        PNone cs.

(** The lifecycle stage and the three lifecycle dates of a tenant. *)
Definition lifecycle_stage_of (cs : list contact) : pyval :=
  first_truthy "lifecyclestage" (PStr "Unknown") cs.
Definition customer_date_of (cs : list contact) : pyval :=
  last_truthy "hs_lifecyclestage_customer_date" cs.
Definition opportunity_date_of (cs : list contact) : pyval :=
  last_truthy "hs_lifecyclestage_opportunity_date" cs.
Definition lead_date_of (cs : list contact) : pyval :=
  last_truthy "hs_lifecyclestage_lead_date" cs.

(** [ft and (not first_touch or ft < first_touch)]: the earliest truthy
    first-touch timestamp, as strings. *)
Definition first_touch_of (cs : list contact) : pyval :=
  foldl (λ first_touch hc,
           let ft := get (contact_properties hc) "hs_analytics_first_timestamp" in
           if truthy ft && (negb (truthy first_touch) ||
                            lt (or_empty ft) (or_empty first_touch))
           then ft else first_touch)
        PNone cs.

(** [cd and (not cognito_signup or cd < cognito_signup)] over
    [u.get("Created", "")]. *)
Definition cognito_signup_of (users : list row) : pyval :=
  foldl (λ cognito_signup u,
           let cd := PStr (default "" (Created u)) in
           if truthy cd && (negb (truthy cognito_signup) ||
                            lt (or_empty cd) (or_empty cognito_signup))
           then cd else cognito_signup)
        PNone users.

(** ** Best deal *)

(** [STAGE_MAP.get(d["properties"].get("dealstage", ""), "Unknown")] *)
Definition mapped_stage (d : deal) : pyval :=
  stage_get (get_or (deal_properties d) "dealstage" (PStr "")) (PStr "Unknown").

(** [a == b] on property values. *)
Definition pyval_eqb (a b : pyval) : bool :=
  match a, b with
  | PNone, PNone => true
  | PStr x, PStr y => String.eqb x y
  | _, _ => false
  end.

(** [stage == "Closed Won"] *)
Definition is_closed_won (d : deal) : bool :=
  pyval_eqb (mapped_stage d) (PStr "Closed Won").

(** [stage not in ("Unlikely", "Churn", "Closed Lost")] *)
Definition not_losing (d : deal) : bool :=
  negb (existsb (pyval_eqb (mapped_stage d))
                [PStr "Unlikely"; PStr "Churn"; PStr "Closed Lost"]).

(** A [for] loop that assigns the first element passing [test] and
    breaks; [None] when the loop ends without assigning. *)
Fixpoint first_passing (test : deal → bool) (ds : list deal) : option deal :=
  match ds with
  | [] => None
  | d :: ds' => if test d then Some d else first_passing test ds'
  end.

(** Lines "Best deal" of the per-tenant loop: the final [best_deal]. *)
Definition best_deal_of (matching_deals : list deal) : option deal :=
  let best_deal := first_passing is_closed_won matching_deals in
  match best_deal, matching_deals with
  | None, d0 :: _ =>
      match first_passing not_losing matching_deals with
      | Some d => Some d
      | None => Some d0
      end
  | _, _ => best_deal
  end.

(** ** The journey record and the output order *)

Record deal_entry := {
  entry_name : pyval;
  entry_stage : pyval;
  entry_amount : pyval;
  entry_created : pyval;
  entry_closed : pyval
}.

(** One element of the ["all_deals"] comprehension. *)
Definition entry_of (d : deal) : deal_entry :=
  let p := deal_properties d in
  {| entry_name := get p "dealname";
     entry_stage := stage_get (get_or p "dealstage" (PStr "")) (get p "dealstage");
     entry_amount := get p "amount";
     entry_created := get p "createdate";
     entry_closed := get p "closedate" |}.

Record journey := {
  company : pyval;
  tenant_id : string;
  first_touch : pyval;
  lifecycle_stage : pyval;
  lead_date : pyval;
  opportunity_date : pyval;
  customer_date : pyval;
  cognito_signup : pyval;
  deal_stage : pyval;
  deal_amount : pyval;
  deal_create_date : pyval;
  deal_close_date : pyval;
  all_deals : list deal_entry
}.

(** The journey assembled for one tenant, from its users, its matched
    contacts in iteration order and its resolved company name. *)
Definition build_journey (deal_index : gmap string (list deal))
    (tid : string) (users : list row) (tenant_hs_contacts : list contact)
    (company_name : pyval) : journey :=
  let matching_deals := match_deals deal_index company_name in
  let best_deal := best_deal_of matching_deals in
  let dp k := match best_deal with
              | Some d => get (deal_properties d) k
              | None => PNone
              end in
  {| company := company_name;
     tenant_id := tid;
     first_touch := first_touch_of tenant_hs_contacts;
     lifecycle_stage := lifecycle_stage_of tenant_hs_contacts;
     lead_date := lead_date_of tenant_hs_contacts;
     opportunity_date := opportunity_date_of tenant_hs_contacts;
     customer_date := customer_date_of tenant_hs_contacts;
     cognito_signup := cognito_signup_of users;
     deal_stage := match best_deal with
                   | Some d => stage_get (get_or (deal_properties d) "dealstage" (PStr ""))
                                         (get (deal_properties d) "dealstage")
                   | None => PNone
                   end;
     deal_amount := dp "amount";
     deal_create_date := dp "createdate";
     deal_close_date := dp "closedate";
     all_deals := map entry_of matching_deals |}.

(** [j.get("first_touch") or j.get("cognito_signup") or "9999"] *)
Definition sort_key (j : journey) : string :=
  if truthy (first_touch j) then or_empty (first_touch j)
  else if truthy (cognito_signup j) then or_empty (cognito_signup j)
  else "9999".

(** [list.sort(key=...)] is a stable sort on the keys: insertion from
    the right, each element placed before the first one whose key is not
    smaller. *)
Fixpoint insert_by_key (j : journey) (sorted : list journey) : list journey :=
  match sorted with
  | [] => [j]
  | x :: sorted' =>
      if String.leb (sort_key j) (sort_key x) then j :: sorted
      else x :: insert_by_key j sorted'
  end.

(** [journeys.sort(key=...)] *)
Definition sort_journeys (journeys : list journey) : list journey :=
  foldr insert_by_key [] journeys.

(** ** Dates *)

(** A [datetime.datetime]: the civil fields and, for an aware value, the
    UTC offset in microseconds. *)
Record datetime := {
  year : Z; month : Z; day : Z;
  hour : Z; minute : Z; second : Z; microsecond : Z;
  utcoffset : option Z
}.

(** The proleptic Gregorian calendar of [datetime]. *)
Definition is_leap (y : Z) : bool :=
  ((y mod 4 =? 0) && negb (y mod 100 =? 0) || (y mod 400 =? 0))%Z.

Definition days_in_month (y m : Z) : Z :=
  (if (m =? 2) then (if is_leap y then 29 else 28)
   else if (m =? 4) || (m =? 6) || (m =? 9) || (m =? 11) then 30
   else 31)%Z.

Definition days_before_year (y : Z) : Z :=
  ((y - 1) * 365 + (y - 1) / 4 - (y - 1) / 100 + (y - 1) / 400)%Z.

Fixpoint days_before_month_nat (y : Z) (m : nat) : Z :=
  match m with
  | O => 0
  | S m' => (days_before_month_nat y m' + days_in_month y (Z.of_nat m))%Z
  end.

(** [date.toordinal()]: day 1 is 0001-01-01. *)
Definition toordinal (dt : datetime) : Z :=
  (days_before_year (year dt)
   + days_before_month_nat (year dt) (Z.to_nat (month dt - 1))
   + day dt)%Z.

(** Microseconds of the civil time since the start of day 0. *)
Definition civil_us (dt : datetime) : Z :=
  ((((toordinal dt * 24 + hour dt) * 60 + minute dt) * 60 + second dt) * 1000000
   + microsecond dt)%Z.

(** [a - b] on datetimes, as a [timedelta] in microseconds. Mixing a
    naive and an aware value raises [TypeError]. *)
Definition datetime_sub (a b : datetime) : result Z :=
  match utcoffset a, utcoffset b with
  | None, None => Ok (civil_us a - civil_us b)%Z
  | Some oa, Some ob => Ok ((civil_us a - oa) - (civil_us b - ob))%Z
  | _, _ => Raise TypeError
  end.

(** [td.days]: a [timedelta] is normalised with [0 <= seconds < 86400],
    so the day count is the floor. *)
Definition timedelta_days (td : Z) : Z := (td / 86400000000)%Z.

(** [%b] and [%d]. *)
Definition month_abbr (m : Z) : string :=
  nth (Z.to_nat (m - 1))
      ["Jan"; "Feb"; "Mar"; "Apr"; "May"; "Jun";
       "Jul"; "Aug"; "Sep"; "Oct"; "Nov"; "Dec"] "".

Definition two_digits (n : Z) : string :=
  (if (n <? 10)%Z then "0" else "") +:+ pretty n.

(** [dt.strftime("%b %d, %Y")] (C locale; [%Y] without padding). *)
Definition strftime_bdY (dt : datetime) : string :=
  month_abbr (month dt) +:+ " " +:+ two_digits (day dt) +:+ ", " +:+ pretty (year dt).

Section Dates.

(** [datetime.fromisoformat], a function of the Python library: it
    returns a datetime or raises [ValueError]. *)
Variable fromisoformat : string → result datetime.

(** [iso_str.replace("Z", "+00:00")] followed by the parse. *)
Definition parse_iso (s : string) : result datetime :=
  fromisoformat (replace_char "Z"%char "+00:00" s).

(** [format_date(iso_str)]; the argument may be [None]. *)
Definition format_date (iso_str : pyval) : result string :=
  if negb (truthy iso_str) || pyval_eqb iso_str (PStr "N/A") then Ok "N/A"
  else
    let s := or_empty iso_str in
    try_except
      (dt ← parse_iso s; Ok (strftime_bdY dt))
      (Ok (if (10 <=? len s)%nat then slice_to 10 s else s)).

(** [days_between(d1, d2)]: an [int], or [None]. *)
Definition days_between (d1 d2 : string) : result (option Z) :=
  try_except
    (dt1 ← parse_iso d1;
     dt2 ← parse_iso d2;
     td ← datetime_sub dt2 dt1;
     Ok (Some (Z.abs (timedelta_days td))))
    (Ok None).

End Dates.

(** *** A reference parser

    The layouts [YYYY-MM-DD] and [YYYY-MM-DD?HH:MM:SS[.fff[fff]][+HH:MM]]
    ([?] any one character, [+] or [-] for the offset sign), which every
    CPython since 3.7 reads as below. Strings of other layouts are
    rejected here; later CPython versions accept more of them. It serves
    to run the date helpers on concrete timestamps. *)

(** Decimal fields. *)
Definition digit (c : ascii) : option Z :=
  let n := nat_of_ascii c in
  if (48 <=? n)%nat && (n <=? 57)%nat then Some (Z.of_nat (n - 48)) else None.

Fixpoint number (cs : list ascii) (acc : Z) : option Z :=
  match cs with
  | [] => Some acc
  | c :: cs' => d ← digit c; number cs' (10 * acc + d)%Z
  end.

Definition in_range (lo hi x : Z) : option Z :=
  if ((lo <=? x) && (x <=? hi))%Z then Some x else None.

(** [[+-]HH:MM], in microseconds. *)
Definition iso_offset (cs : list ascii) : option (option Z) :=
  match cs with
  | [] => Some None
  | [sg; h1; h2; colon; m1; m2] =>
      sign ← (if ascii_dec sg "+" then Some 1%Z
              else if ascii_dec sg "-" then Some (-1)%Z else None);
      _ ← (if ascii_dec colon ":" then Some 0%Z else None);
      h ← number [h1; h2] 0 ≫= in_range 0 23;
      m ← number [m1; m2] 0 ≫= in_range 0 59;
      Some (Some (sign * ((h * 60 + m) * 60 * 1000000))%Z)
  | _ => None
  end.

(** [.fff] or [.ffffff], then the offset. *)
Definition iso_fraction (cs : list ascii) : option (Z * option Z) :=
  match cs with
  | dot :: f1 :: f2 :: f3 :: rest =>
      if ascii_dec dot "." then
        match rest with
        | f4 :: f5 :: f6 :: rest' =>
            match number [f1; f2; f3; f4; f5; f6] 0 with
            | Some us => off ← iso_offset rest'; Some (us, off)
            | None =>
                ms ← number [f1; f2; f3] 0;
                off ← iso_offset rest; Some ((ms * 1000)%Z, off)
            end
        | _ =>
            ms ← number [f1; f2; f3] 0;
            off ← iso_offset rest; Some ((ms * 1000)%Z, off)
        end
      else off ← iso_offset cs; Some (0%Z, off)
  | _ => off ← iso_offset cs; Some (0%Z, off)
  end.

(** The date, then the optional time. *)
Definition iso_layout (cs : list ascii) : option datetime :=
  match cs with
  | y1 :: y2 :: y3 :: y4 :: s1 :: m1 :: m2 :: s2 :: d1 :: d2 :: rest =>
      _ ← (if ascii_dec s1 "-" then Some 0%Z else None);
      _ ← (if ascii_dec s2 "-" then Some 0%Z else None);
      y ← number [y1; y2; y3; y4] 0 ≫= in_range 1 9999;
      m ← number [m1; m2] 0 ≫= in_range 1 12;
      d ← number [d1; d2] 0 ≫= in_range 1 (days_in_month y m);
      match rest with
      | [] =>
          Some {| year := y; month := m; day := d; hour := 0; minute := 0;
                  second := 0; microsecond := 0; utcoffset := None |}
      | _ :: h1 :: h2 :: c1 :: mi1 :: mi2 :: c2 :: se1 :: se2 :: rest' =>
          _ ← (if ascii_dec c1 ":" then Some 0%Z else None);
          _ ← (if ascii_dec c2 ":" then Some 0%Z else None);
          h ← number [h1; h2] 0 ≫= in_range 0 23;
          mi ← number [mi1; mi2] 0 ≫= in_range 0 59;
          se ← number [se1; se2] 0 ≫= in_range 0 59;
          '(us, off) ← iso_fraction rest';
          Some {| year := y; month := m; day := d; hour := h; minute := mi;
                  second := se; microsecond := us; utcoffset := off |}
      | _ => None
      end
  | _ => None
  end.

(** The parser: a datetime, or [ValueError]. *)
Definition iso_reference (s : string) : result datetime :=
  match iso_layout (String.list_ascii_of_string s) with
  | Some dt => Ok dt
  | None => Raise ValueError
  end.

(** ** Vocabulary of the properties *)

(** [substr w s]: [w] occurs in [s]. *)
Definition substr (w s : string) : Prop := ∃ a b, s = a +:+ w +:+ b.

(** The e-mail ends with ["@"] and a listed internal domain. *)
Definition in_internal_domain (e : string) : Prop :=
  ∃ p d, d ∈ ["arda.cards"; "arda.com"] ∧ e = p +:+ "@" +:+ d.

(** The e-mail has an ["@"] and its local part, lower-cased, starts
    with ["test"]. *)
Definition is_test_account (e : string) : Prop :=
  ∃ loc rest t, e = loc +:+ "@" +:+ rest ∧ ¬ substr "@" loc ∧
                lower loc = "test" +:+ t.

(** The e-mail starts with the distribution-alias prefix. *)
Definition is_alias (e : string) : Prop := ∃ rest, e = "customer-success+" +:+ rest.

(** Keep the first deal of every identifier, in order. *)
Fixpoint dedup_by_id (ds : list deal) : list deal :=
  match ds with
  | [] => []
  | d :: ds' => d :: filter (λ d', deal_id d' ≠ deal_id d) (dedup_by_id ds')
  end.

(** The bucket read for one word of the company name in the keyword
    pass: nothing for a short word or a word that is not a key. *)
Definition word_bucket (deal_index : gmap string (list deal)) (word : string)
  : list deal :=
  if long_word word then default [] (deal_index !! word) else [].

(** The candidates of the keyword pass, in the order the loops visit
    them. *)
Definition keyword_candidates (deal_index : gmap string (list deal))
    (cn_lower : string) : list deal :=
  concat (map (word_bucket deal_index) (split cn_lower)).

(** [d] is registered under [k]: [k] is its company part, or a word of
    it longer than three characters. *)
Definition indexed_under (k : string) (d : deal) : Prop :=
  k = company_part d ∨ (k ∈ split (company_part d) ∧ long_word k = true).

(** Every bucket is non-empty and holds only deals registered under its
    key. *)
Definition index_ok (idx : gmap string (list deal)) : Prop :=
  ∀ k b, idx !! k = Some b → b ≠ [] ∧ ∀ d, d ∈ b → indexed_under k d.

(** Rule 2 of the roster filter as worded: the local part (the text
    before the first ["@"]) starts with ["test"], and the e-mail,
    lower-cased, contains ["test"]. [fold_case] chooses whether the
    local part is lower-cased before the comparison. *)
Definition test_rule_as_stated (fold_case : bool) (email : string) : bool :=
  let local_part := before_char "@"%char email in
  startswith "test" (if fold_case then lower local_part else local_part) &&
  contains "test" (lower email).

(** The three rules with rule 2 as worded. *)
Definition excluded_as_stated (fold_case : bool) (r : row) : bool :=
  let email := strip (Email r) in
  skip_internal_domain email || test_rule_as_stated fold_case email ||
  skip_alias email.

(** The matcher with the company name lower-cased and trimmed. *)
Definition match_deals_as_stated (deal_index : gmap string (list deal))
    (company_name : pyval) : list deal :=
  let cn := strip (lower (or_empty company_name)) in
  match deal_index !! cn with
  | Some bucket => dedup_by_id bucket
  | None => dedup_by_id (filter (λ d, relevant cn d = true)
                                (keyword_candidates deal_index cn))
  end.

(** [d] is the element at index [i] and the first one satisfying [P]. *)
Definition first_at (P : deal → Prop) (ds : list deal) (i : nat) (d : deal) : Prop :=
  ds !! i = Some d ∧ P d ∧ ∀ j d', j < i → ds !! j = Some d' → ¬ P d'.

(** The mapped stage label is ["Closed Won"]. *)
Definition closed_won (d : deal) : Prop := mapped_stage d = PStr "Closed Won".

(** The mapped stage label is one of the three losing or inactive ones. *)
Definition losing (d : deal) : Prop :=
  mapped_stage d ∈ [PStr "Unlikely"; PStr "Churn"; PStr "Closed Lost"].

(** The three-step policy. *)
Definition selected (ds : list deal) (d : deal) : Prop :=
  (∃ i, first_at closed_won ds i d) ∨
  ((∀ d', d' ∈ ds → ¬ closed_won d') ∧ ∃ i, first_at (λ d, ¬ losing d) ds i d) ∨
  ((∀ d', d' ∈ ds → ¬ closed_won d') ∧ (∀ d', d' ∈ ds → losing d') ∧
   ds !! 0 = Some d).

(** Property [k] of a contact is empty: null, absent or [""]. *)
Definition empty_at (k : string) (hc : contact) : Prop :=
  truthy (get (contact_properties hc) k) = false.

(** Neither timestamp is present. *)
Definition lacks_both (j : journey) : Prop :=
  truthy (first_touch j) = false ∧ truthy (cognito_signup j) = false.

(** The order of the sort: keys compared as strings. *)
Definition key_le (a b : journey) : Prop := String.le (sort_key a) (sort_key b).

(** The headers of a request built without a token. *)
Definition bare_headers : list (string * string) :=
  [ ("Authorization", "Bearer "); ("Content-Type", "application/json") ].

(** One day, in microseconds. *)
Definition day_us : Z := 86400000000.

(** ** Concrete rosters, deals, contacts and journeys *)

(** A roster row with no [Name]. *)
Definition mk_row (email : string) (tenant created : option string) : row :=
  {| Email := email; Name := None; Tenant := tenant; Created := created |}.

(** A deal with a name and a stage code. *)
Definition mk_deal (i dname stage : string) : deal :=
  {| deal_id := i;
     deal_properties := {[ "dealname" := PStr dname; "dealstage" := PStr stage ]} |}.

(** A test account written with a capital, and a row whose address
    has no ["@"]. *)
Definition capital_test_row : row := mk_row "Test.User@example.com" (Some "t1") None.
Definition no_at_row : row := mk_row "tester" (Some "t1") None.

(** Three deals of the same customer: won, lost, in free trial. *)
Definition acme_renewal : deal := mk_deal "1" "Acme Corp - Renewal" "closedwon".
Definition acme_labs : deal := mk_deal "2" "Acme Labs" "closedlost".
Definition acme_pilot : deal := mk_deal "3" "Acme Corp - Pilot" "1499827945".

(** A contact with the listed properties. *)
Definition mk_contact (i : string) (props : list (string * pyval)) : contact :=
  {| contact_id := i; contact_properties := list_to_map props |}.

(** Two contacts of one tenant, each with a stage and a lead date. *)
Definition early_contact : contact :=
  mk_contact "c1" [ ("lifecyclestage", PStr "lead");
                    ("hs_lifecyclestage_lead_date", PStr "2024-01-10T00:00:00Z") ].
Definition late_contact : contact :=
  mk_contact "c2" [ ("lifecyclestage", PStr "customer");
                    ("hs_lifecyclestage_lead_date", PStr "2024-03-02T00:00:00Z") ].

(** Journeys of three tenants: one without CRM contact whose user has
    an empty [Created]; one whose contact has a first touch in the year
    9999, the last year of [datetime]; one without CRM contact whose
    user has an ISO timestamp. *)
Definition no_signal_journey : journey :=
  build_journey ∅ "tenant-a" [mk_row "ann@a.example" (Some "tenant-a") (Some "")] []
                (PStr "A").
Definition far_future_journey : journey :=
  build_journey ∅ "tenant-b" [mk_row "bob@b.example" (Some "tenant-b") None]
                [mk_contact "c3" [ ("hs_analytics_first_timestamp",
                                    PStr "9999-12-31T00:00:00Z") ]]
                (PStr "B").
Definition dated_journey : journey :=
  build_journey ∅ "tenant-c"
                [mk_row "cy@c.example" (Some "tenant-c") (Some "2024-05-01T09:00:00")] []
                (PStr "C").

(** A remote side that answers every request with an HTTP error. *)
Definition refusing : network := λ _ _, None.

(** ** Vocabulary of the further properties *)

(** Row [r] is kept by the loader and carries the usable tenant [t]. *)
Definition grouped_under (t : string) (r : row) : Prop :=
  skipped r = false ∧ Tenant r = Some t ∧ t ≠ "" ∧ t ≠ "None".

Global Instance grouped_under_dec (t : string) (r : row) : Decision (grouped_under t r).
Proof. unfold grouped_under. apply _. Defined.

(** A remote side that answers the [k]-th request with the [k]-th page
    and every later request with an HTTP error. *)
Definition serve (pages : list deals_page) : network :=
  λ sent _, pages !! length sent.

(** The URL of a deal-list request made with the cursor [after]. *)
Definition deals_url (after : pyval) : string :=
  BASE_URL +:+ "/crm/v3/objects/deals?limit=100&properties=" +:+ deal_props +:+
  (if truthy after then "&after=" +:+ or_empty after else "").

(** The page carries a cursor to a next page. *)
Definition has_next (pg : deals_page) : Prop := truthy (page_after pg) = true.

(** [v] is the property [k] of the contact. *)
Definition contact_value (k : string) (hc : contact) : pyval :=
  get (contact_properties hc) k.

(** [u.get("Created", "")] *)
Definition created_value (u : row) : pyval := PStr (default "" (Created u)).

(** Two pages of deals and the last page. *)
Definition page_one : deals_page :=
  {| page_results := [acme_renewal; acme_labs]; page_after := PStr "100" |}.
Definition page_two : deals_page :=
  {| page_results := [acme_pilot]; page_after := PNone |}.

(** ** CRM client: the contact search *)

(** One entry of ["filters"]. *)
Record search_filter := {
  propertyName : string;
  operator : string;
  value : string
}.

(** The body of a search: one list of filters per filter group, the
    properties asked for and the page size. *)
Record search_body := {
  filterGroups : list (list search_filter);
  body_properties : list string;
  body_limit : nat
}.

(** A POST request: the URL, the headers and the body that
    [json.dumps] encodes. *)
Record post_request := {
  post_url : string;
  post_headers : list (string * string);
  post_data : search_body
}.

(** The remote side of a search: the ["results"] of the decoded answer,
    or [None] for an [HTTPError]. These are the two outcomes
    [hubspot_post] returns from; any other exception of [urlopen] or of
    the decoding (a timeout, a [URLError], a body that is not JSON) is
    not caught, ends the run, and is no outcome here. *)
Definition search_network := list post_request → post_request → option (list contact).

(** [hubspot_post(endpoint, body)], threading the log of requests sent. *)
Definition hubspot_post (environ : gmap string string) (net : search_network)
    (sent : list post_request) (endpoint : string) (body : search_body)
  : option (list contact) * list post_request :=
  let req := {| post_url := BASE_URL +:+ endpoint;
                post_headers := [ ("Authorization", "Bearer " +:+ API_TOKEN environ);
                                  ("Content-Type", "application/json") ];
                post_data := body |} in
  (net sent req, sent ++ [req]).

(** The properties asked for each contact. *)
Definition contact_props : list string :=
  [ "email"; "firstname"; "lastname"; "company"; "lifecyclestage";
    "hs_lead_status"; "createdate"; "hs_analytics_source";
    "hs_analytics_source_data_1"; "hs_analytics_source_data_2";
    "hs_analytics_first_timestamp"; "hs_analytics_first_url";
    "hs_analytics_first_referrer"; "hubspot_owner_id";
    "associatedcompanyid"; "notes_last_updated";
    "hs_lifecyclestage_customer_date";
    "hs_lifecyclestage_opportunity_date";
    "hs_lifecyclestage_lead_date" ].

(** [range(0, stop, step)] for a positive [step]. *)
Definition range_step (stop step : nat) : list nat :=
  map (λ k, k * step) (seq 0 ((stop + step - 1) / step)).

(** [l[i:j]] *)
Definition slice {A} (i j : nat) (l : list A) : list A := take (j - i) (drop i l).

(** The body built for one batch of e-mails. *)
Definition search_body_of (batch : list string) : search_body :=
  {| filterGroups :=
       map (λ email, [ {| propertyName := "email"; operator := "EQ"; value := email |} ])
           batch;
     body_properties := contact_props;
     body_limit := 100 |}.

(** [email = (c.get("properties", {}).get("email") or "").lower();
     if email: all_contacts[email] = c] *)
Definition store_contact (all_contacts : gmap string contact) (c : contact)
  : gmap string contact :=
  let email := lower (or_empty (get (contact_properties c) "email")) in
  if negb (String.eqb email "") then <[email := c]> all_contacts else all_contacts.

(** The body of [for i in range(0, len(email_list), batch_size)]. *)
Definition search_step (environ : gmap string string) (net : search_network)
    (email_list : list string)
    (st : gmap string contact * list post_request) (i : nat)
  : gmap string contact * list post_request :=
  let batch := slice i (i + 3) email_list in
  let '(result, sent) :=
    hubspot_post environ net st.2 "/crm/v3/objects/contacts/search"
                 (search_body_of batch) in
  match result with
  | Some results => (foldl store_contact st.1 results, sent)
  | None => (st.1, sent)
  end.

(** [search_contacts_by_emails(emails)] on [email_list = list(emails)]:
    the contacts by lower-cased e-mail, and the requests sent. *)
Definition search_contacts_by_emails (environ : gmap string string)
    (net : search_network) (email_list : list string)
  : gmap string contact * list post_request :=
  foldl (search_step environ net email_list) (∅, [])
        (range_step (length email_list) 3).



(** A search side that returns one contact per request. *)
Definition search_echo : search_network :=
  λ _ req,
    Some [ mk_contact "7" [ ("email", PStr "Ann@Example.COM");
                            ("company", PStr "Example Inc") ] ].


(** Every contact of the map came back from the remote side and is
    stored under its own lower-cased e-mail, which is not empty. *)
Definition well_keyed (net : search_network) (m : gmap string contact) : Prop :=
  ∀ k c, m !! k = Some c →
    k ≠ "" ∧ k = lower (or_empty (get (contact_properties c) "email")) ∧
    ∃ sent req results, net sent req = Some results ∧ c ∈ results.

(** ** Per-tenant loop: contacts, company name, source *)

(** [s.split(c)[1]] when [c in s]: the text after the first [c], up to
    the next one. *)
Fixpoint after_char (c : ascii) (s : string) : string :=
  match s with
  | "" => ""
  | String a s' => if ascii_dec a c then s' else after_char c s'
  end.

Definition second_field (c : ascii) (s : string) : string :=
  before_char c (after_char c s).

(** ASCII letters and [c.upper()]. *)
Definition is_letter (c : ascii) : bool :=
  let n := nat_of_ascii c in
  ((65 <=? n)%nat && (n <=? 90)%nat) || ((97 <=? n)%nat && (n <=? 122)%nat).

Definition upper_char (c : ascii) : ascii :=
  let n := nat_of_ascii c in
  if (97 <=? n)%nat && (n <=? 122)%nat then ascii_of_nat (n - 32) else c.

(** [s.title()]: a letter that follows a letter is lower-cased, any
    other letter is upper-cased. *)
Fixpoint title_from (previous_is_cased : bool) (s : string) : string :=
  match s with
  | "" => ""
  | String c s' =>
      if is_letter c
      then String (if previous_is_cased then lower_char c else upper_char c)
                  (title_from true s')
      else String c (title_from false s')
  end.

Definition title (s : string) : string := title_from false s.

(** [a or b] on property values. *)
Definition or_else (a b : pyval) : pyval := if truthy a then a else b.

(** [emails = [u["Email"].strip().lower() for u in users]] *)
Definition tenant_emails (users : list row) : list string :=
  map (λ u, lower (strip (Email u))) users.

(** The loop over [emails]: the matched contacts in order, and the
    [company] of the first contact reached while no name is set. *)
Definition lookup_step (hs_contacts : gmap string contact)
    (st : list contact * pyval) (email : string) : list contact * pyval :=
  match hs_contacts !! email with
  | Some hc =>
      (st.1 ++ [hc],
       if negb (truthy st.2) then get (contact_properties hc) "company" else st.2)
  | None => st
  end.

Definition lookup_contacts (hs_contacts : gmap string contact) (emails : list string)
  : list contact * pyval :=
  foldl (lookup_step hs_contacts) ([], PNone) emails.

(** "Fall back to Cognito name": the first [Name] that is neither empty
    nor ["None"]. *)
Fixpoint first_name (users : list row) : option string :=
  match users with
  | [] => None
  | u :: users' =>
      let n := default "" (Name u) in
      if negb (String.eqb n "") && negb (String.eqb n "None") then Some n
      else first_name users'
  end.

(** [u["Email"].split("@")[1] if "@" in u["Email"] else ""] *)
Definition email_domain (u : row) : string :=
  if contains "@" (Email u) then second_field "@" (Email u) else "".

(** The domain is usable to derive a name. *)
Definition usable_domain (domain : string) : bool :=
  negb (String.eqb domain "") && negb (endswith "gmail.com" domain) &&
  negb (endswith "icloud.com" domain).

(** "Derive from email domain": [domain.split(".")[0].title()] of the
    first usable domain. *)
Fixpoint first_domain_name (users : list row) : option string :=
  match users with
  | [] => None
  | u :: users' =>
      let domain := email_domain u in
      if usable_domain domain then Some (title (before_char "." domain))
      else first_domain_name users'
  end.

(** [f"Unknown ({emails[0] if emails else tenant_id[:8]})"] *)
Definition unknown_company (tid : string) (emails : list string) : string :=
  "Unknown (" +:+ match emails with e :: _ => e | [] => slice_to 8 tid end +:+ ")".

(** The company name once the three fallbacks have run. *)
Definition resolve_company (hs_contacts : gmap string contact) (tid : string)
    (users : list row) : pyval :=
  let emails := tenant_emails users in
  let company_name := (lookup_contacts hs_contacts emails).2 in
  let company_name :=
    if negb (truthy company_name)
    then match first_name users with Some n => PStr n | None => company_name end
    else company_name in
  let company_name :=
    if negb (truthy company_name)
    then match first_domain_name users with Some n => PStr n | None => company_name end
    else company_name in
  if negb (truthy company_name) then PStr (unknown_company tid emails)
  else company_name.

(** The first-touch loop with the source it records. *)
Definition first_touch_step (st : pyval * pyval) (hc : contact) : pyval * pyval :=
  let ft := get (contact_properties hc) "hs_analytics_first_timestamp" in
  if truthy ft && (negb (truthy st.1) || lt (or_empty ft) (or_empty st.1))
  then (ft, get (contact_properties hc) "hs_analytics_source")
  else st.

Definition first_touch_and_source (cs : list contact) : pyval * pyval :=
  foldl first_touch_step (PNone, PNone) cs.

(** The "Analytics source" loop: the source and the two details of the
    first contact with a source, else what was set before the loop. *)
Fixpoint source_loop (before : pyval * string * string) (cs : list contact)
  : pyval * string * string :=
  match cs with
  | [] => before
  | hc :: cs' =>
      let s := get (contact_properties hc) "hs_analytics_source" in
      if truthy s
      then (s,
            or_empty (get (contact_properties hc) "hs_analytics_source_data_1"),
            or_empty (get (contact_properties hc) "hs_analytics_source_data_2"))
      else source_loop before cs'
  end.

(** [source], [source_detail_1], [source_detail_2] of a tenant. *)
Definition source_of (cs : list contact) : pyval * string * string :=
  let first_touch_source := (first_touch_and_source cs).2 in
  source_loop (or_else first_touch_source (PStr "Unknown"), "", "") cs.

(** [f"{source_detail_1} {source_detail_2}".strip()] *)
Definition source_detail_of (cs : list contact) : string :=
  strip ((source_of cs).1.2 +:+ " " +:+ (source_of cs).2).

(** ** The journeys of all tenants *)

(** The journey of one tenant: body of the loop over the tenants. *)
Definition tenant_journey (hs_contacts : gmap string contact)
    (deal_index : gmap string (list deal)) (tid : string) (users : list row)
  : journey :=
  build_journey deal_index tid users
                (lookup_contacts hs_contacts (tenant_emails users)).1
                (resolve_company hs_contacts tid users).

(** The order of [sorted(cognito_tenants.items())]: by tenant id, the
    ids being distinct. *)
Definition tenant_le (a b : string * list row) : Prop := String.le a.1 b.1.

Global Instance tenant_le_dec : RelDecision tenant_le.
Proof. intros a b. unfold tenant_le. apply _. Defined.

Definition sorted_items (tenants : gmap string (list row)) : list (string * list row) :=
  merge_sort tenant_le (map_to_list tenants).

(** The journeys as [main] returns them. *)
Definition all_journeys (hs_contacts : gmap string contact) (all_deals : list deal)
    (tenants : gmap string (list row)) : list journey :=
  let deal_index := build_index all_deals in
  sort_journeys
    (map (λ item, tenant_journey hs_contacts deal_index item.1 item.2)
         (sorted_items tenants)).

(** Journeys compared by tenant id. *)
Definition tenant_id_le (a b : journey) : Prop :=
  String.le (tenant_id a) (tenant_id b).

(** No name can be derived from the user's address. *)
Definition no_usable_domain (u : row) : Prop := usable_domain (email_domain u) = false.

(** Two users at a free mail domain, without [Name]. *)
Definition gmail_users : list row :=
  [ mk_row "Pat@gmail.com" (Some "t9") None; mk_row "lee@icloud.com" (Some "t9") None ].

(** ** The report: timeline of a journey *)

(** [f"{v}"] *)
Definition fmt (v : pyval) : string :=
  match v with PNone => "None" | PStr s => s end.

(** The newline character. *)
Definition nl : string := String "010"%char "".

(** A timeline event: [(date, label, detail)]. *)
Definition event : Type := string * string * string.

Definition event_date (e : event) : string := e.1.1.

(** [if cond: events.append((cond, label, detail))] *)
Definition add_event (cond : pyval) (label detail : string) (events : list event)
  : list event :=
  if truthy cond then events ++ [(or_empty cond, label, detail)] else events.

(** [f"{j['deal_stage'] or 'N/A'}" + (f" | ${j['deal_amount']}" if j['deal_amount'] else "")] *)
Definition deal_text (j : journey) : string :=
  fmt (or_else (deal_stage j) (PStr "N/A")) +:+
  (if truthy (deal_amount j) then " | $" +:+ fmt (deal_amount j) else "").

(** The events of a journey, in the order the script appends them.
    [source] and [source_detail] are the journey's fields of that name. *)
Definition events_of (j : journey) (source : pyval) (source_detail : string)
  : list event :=
  let events := [] in
  let events :=
    add_event (first_touch j) "First Touch"
      ("Source: " +:+ fmt source +:+
       (if negb (String.eqb source_detail "") then " (" +:+ source_detail +:+ ")" else ""))
      events in
  let events := add_event (lead_date j) "Became Lead" "Lifecycle stage → Lead" events in
  let events :=
    add_event (deal_create_date j) "Deal Created" ("Stage: " +:+ deal_text j) events in
  let events :=
    add_event (opportunity_date j) "Became Opportunity"
              "Lifecycle stage → Opportunity" events in
  let events :=
    add_event (cognito_signup j) "Signed Up for Arda"
              "Created account on the platform" events in
  let events :=
    add_event (customer_date j) "Became Customer" "Lifecycle stage → Customer" events in
  add_event (deal_close_date j) "Deal Closed" ("Result: " +:+ deal_text j) events.

(** [l.sort(key=...)] with string keys: the stable insertion sort, as
    for the journeys. *)
Fixpoint insert_by {A} (key : A → string) (x : A) (sorted : list A) : list A :=
  match sorted with
  | [] => [x]
  | y :: sorted' =>
      if String.leb (key x) (key y) then x :: sorted
      else y :: insert_by key x sorted'
  end.

Definition sort_by {A} (key : A → string) (l : list A) : list A :=
  foldr (insert_by key) [] l.

(** [events] after [events.sort(key=lambda e: e[0])]. *)
Definition timeline_events (j : journey) (source : pyval) (source_detail : string)
  : list event :=
  sort_by event_date (events_of j source source_detail).

(** The two lines printed for each event of [enumerate(events)], from
    index [i] on; [n] is [len(events)]. *)
Fixpoint event_lines (fromisoformat : string → result datetime) (n i : nat)
    (events : list event) : result (list string) :=
  match events with
  | [] => Ok []
  | (date, label, detail) :: rest =>
      let is_last := (i =? n - 1)%nat in
      let connector := if is_last then "└──" else "├──" in
      let line := if is_last then "   " else "│  " in
      shown ← format_date fromisoformat (PStr date);
      rest_lines ← event_lines fromisoformat n (S i) rest;
      Ok (("    " +:+ connector +:+ " " +:+ shown +:+ "  " +:+ label)
          :: ("    " +:+ line +:+ "                    " +:+ detail)
          :: rest_lines)
  end.

(** The line of a day count between the first touch and [other], when
    both are present and the count is not [None]. *)
Definition elapsed_line (fromisoformat : string → result datetime) (j : journey)
    (other : pyval) (text : string) : result (list string) :=
  if truthy (first_touch j) && truthy other then
    days ← days_between fromisoformat (or_empty (first_touch j)) (or_empty other);
    Ok (match days with
        | Some n => [text +:+ pretty n +:+ " days"]
        | None => []
        end)
  else Ok [].

(** The strings printed for the timeline of one journey, one per
    [print]. *)
Definition timeline_report (fromisoformat : string → result datetime) (j : journey)
    (source : pyval) (source_detail : string) : result (list string) :=
  let events := timeline_events j source source_detail in
  match events with
  | [] =>
      shown ← format_date fromisoformat (cognito_signup j);
      Ok [ nl +:+ "  JOURNEY TIMELINE: No HubSpot data found for this tenant";
           "    Only Cognito signup: " +:+ shown ]
  | _ =>
      lines ← event_lines fromisoformat (length events) 0 events;
      signup ← elapsed_line fromisoformat j (cognito_signup j)
                            (nl +:+ "    ⏱  First Touch → Signup: ");
      closed ← elapsed_line fromisoformat j (deal_close_date j)
                            "    ⏱  First Touch → Deal Close: ";
      Ok ((nl +:+ "  JOURNEY TIMELINE:") :: lines ++ signup ++ closed)
  end.

(** ** The report: histogram of the deal stages *)

(** [STAGE_ORDER] *)
Definition STAGE_ORDER : list string :=
  [ "Prospect"; "Approached"; "Lead"; "Demo Scheduled";
    "No-Show/Reschedule Demo"; "Demo Follow-Up"; "Budgetary quote sent";
    "Payment Link Sent"; "Free Trial"; "Freemium"; "Interested in a pilot";
    "Closed Won"; "Ping Later"; "On Hold"; "Closed Lost"; "Churn";
    "Unlikely"; "Internal+Friends and Family" ].

(** [j["deal_stage"] or "No Deal"] *)
Definition stage_key (j : journey) : string :=
  fmt (or_else (deal_stage j) (PStr "No Deal")).

(** [counts[k] += 1] on a [defaultdict(int)]. *)
Definition count_add (counts : gmap string nat) (k : string) : gmap string nat :=
  <[k := S (default 0 (counts !! k))]> counts.

(** [stage_counts] after the loop over the journeys. *)
Definition stage_counts (journeys : list journey) : gmap string nat :=
  foldl (λ counts j, count_add counts (stage_key j)) ∅ journeys.

(** The stages the histogram runs over. *)
Definition display_order : list string := STAGE_ORDER ++ ["No Deal"].

(** The [(stage, count)] pairs printed under "BY DEAL STAGE", in order:
    [for stage in STAGE_ORDER + ["No Deal"]: if stage in stage_counts]. *)
Definition stage_rows (journeys : list journey) : list (string * nat) :=
  omap (λ stage, (λ n, (stage, n)) <$> stage_counts journeys !! stage) display_order.

(** [s.ljust(n)] and [s.rjust(n)] with spaces, [s * n]. *)
Fixpoint spaces (n : nat) : string :=
  match n with O => "" | S n' => String " "%char (spaces n') end.

Definition ljust (n : nat) (s : string) : string := s +:+ spaces (n - len s).
Definition rjust (n : nat) (s : string) : string := spaces (n - len s) +:+ s.

Fixpoint repeat_string (s : string) (n : nat) : string :=
  match n with O => "" | S n' => s +:+ repeat_string s n' end.

(** [f"    {stage:35s} {count:3d}  {bar}"] with [bar = "█" * count]. *)
Definition stage_line (row : string * nat) : string :=
  "    " +:+ ljust 35 row.1 +:+ " " +:+ rjust 3 (pretty row.2) +:+ "  " +:+
  repeat_string "█" row.2.

(** The lines printed under "BY DEAL STAGE". *)
Definition stage_histogram (journeys : list journey) : list string :=
  map stage_line (stage_rows journeys).


(** Events compared by date string. *)
Definition event_le (a b : event) : Prop := String.le (event_date a) (event_date b).

(** The seven date fields of a journey, in the order of the events. *)
Definition date_fields (j : journey) : list pyval :=
  [ first_touch j; lead_date j; deal_create_date j; opportunity_date j;
    cognito_signup j; customer_date j; deal_close_date j ].

(* ================================================================== *)
(** * Part II. Properties                                              *)
(* ================================================================== *)

(** ** Strings: what the primitives compute *)

Section StringFacts.

Implicit Types (s t p w : string) (c : ascii).

Local Arguments String.append !_ _ : simpl nomatch.

Lemma sapp_nil_r s : s +:+ "" = s.
Proof. induction s as [|c s IH]; simpl; [done | by rewrite IH]. Qed.

Lemma sapp_assoc s t p : (s +:+ t) +:+ p = s +:+ t +:+ p.
Proof. induction s as [|c s IH]; simpl; [done | by rewrite IH]. Qed.

Lemma sapp_cons c s t : String c s +:+ t = String c (s +:+ t).
Proof. done. Qed.

Lemma lower_app s t : lower (s +:+ t) = lower s +:+ lower t.
Proof. induction s as [|c s IH]; simpl; [done | by rewrite IH]. Qed.

Lemma substr_refl s : substr s s.
Proof. exists "", "". by rewrite sapp_nil_r. Qed.

Lemma substr_trans w s t : substr w s → substr s t → substr w t.
Proof.
  intros (a & b & ->) (a' & b' & ->).
  exists (a' +:+ a), (b +:+ b'). by rewrite !sapp_assoc.
Qed.

Lemma substr_cons c w s : substr w s → substr w (String c s).
Proof. intros (a & b & ->). by exists (String c a), b. Qed.

Lemma substr_lower w s : substr w s → substr (lower w) (lower s).
Proof.
  intros (a & b & ->). exists (lower a), (lower b). by rewrite !lower_app.
Qed.

Lemma startswith_spec p s : startswith p s = true ↔ ∃ t, s = p +:+ t.
Proof.
  revert s. induction p as [|a p IH]; intros s; simpl.
  - split; [intros _; by exists s | done].
  - destruct s as [|b s].
    + split; [done | intros [t Ht]; discriminate].
    + destruct (ascii_dec a b) as [->|Hne].
      * rewrite IH. split; intros [t Ht]; exists t; simpl in *; congruence.
      * split; [done | intros [t Ht]; simpl in Ht; congruence].
Qed.

Lemma endswith_spec p s : endswith p s = true ↔ ∃ t, s = t +:+ p.
Proof.
  induction s as [|c s IH]; simpl.
  - destruct (String.string_dec p "") as [->|Hne].
    + split; [intros _; by exists "" | done].
    + split; [done | intros [[|??] Ht]; simpl in Ht; congruence].
  - destruct (String.string_dec p (String c s)) as [->|Hne].
    + split; [intros _; by exists "" | done].
    + rewrite IH. split.
      * intros [t ->]. by exists (String c t).
      * intros [[|c' t] Ht]; simpl in Ht; [congruence|].
        exists t. congruence.
Qed.

Lemma contains_spec w s : contains w s = true ↔ substr w s.
Proof.
  induction s as [|c s IH]; simpl.
  - rewrite orb_false_r, startswith_spec. split.
    + intros [t Ht]. exists "", t. done.
    + intros ([|??] & b & Hab); simpl in Hab; [by exists b | discriminate].
  - rewrite orb_true_iff, startswith_spec, IH. split.
    + intros [[t ->] | Hs]; [by exists "", t | by apply substr_cons].
    + intros ([|c' a] & b & Hab); simpl in Hab.
      * left. by exists b.
      * right. exists a, b. congruence.
Qed.

Lemma lstrip_substr s : substr (lstrip s) s.
Proof.
  induction s as [|c s IH]; simpl; [apply substr_refl|].
  destruct (isspace c); [by apply substr_cons | apply substr_refl].
Qed.

Lemma rstrip_prefix s : ∃ t, s = rstrip s +:+ t.
Proof.
  induction s as [|c s [t IH]]; simpl; [by exists ""|].
  destruct (rstrip s) as [|c' r] eqn:Hr.
  - destruct (isspace c); [by exists (String c s) | exists s; done].
  - exists t. simpl. f_equal. exact IH.
Qed.

Lemma strip_substr s : substr (strip s) s.
Proof.
  unfold strip. eapply substr_trans; [|apply lstrip_substr].
  destruct (rstrip_prefix (lstrip s)) as [t Ht].
  exists "", t. done.
Qed.

Lemma before_last_prefix sep s q :
  before_last sep s = Some q → ∃ t, s = q +:+ sep +:+ t.
Proof.
  revert q. induction s as [|c s IH]; intros q; simpl.
  - destruct (startswith sep "") eqn:Hs; [|done].
    intros [= <-]. by apply startswith_spec in Hs.
  - destruct (before_last sep s) as [q'|].
    + intros [= <-]. destruct (IH q' eq_refl) as [t ->]. by exists t.
    + destruct (startswith sep (String c s)) eqn:Hs; [|done].
      intros [= <-]. by apply startswith_spec in Hs.
Qed.

(** When [s] starts with a non-space, the first word of [split s] is
    a prefix of [s]. *)
Lemma split_first_prefix c s w ws :
  isspace c = false → split (String c s) = w :: ws → ∃ t, String c s = w +:+ t.
Proof.
  revert c w ws. induction s as [|c' s' IH]; intros c w ws Hc.
  - simpl. rewrite Hc. intros [= <- <-]. by exists "".
  - change (split (String c (String c' s'))) with
      (if isspace c then split (String c' s')
       else if isspace c' then String c "" :: split (String c' s')
       else match split (String c' s') with
            | w :: ws => String c w :: ws
            | [] => [String c ""]
            end).
    rewrite Hc. destruct (isspace c') eqn:Hc'.
    + intros [= <- <-]. by exists (String c' s').
    + destruct (split (String c' s')) as [|w0 ws0] eqn:Hsp.
      * intros [= <- <-]. by exists (String c' s').
      * intros [= <- <-]. destruct (IH c' w0 ws0 Hc' Hsp) as [t Ht].
        exists t. simpl. f_equal. exact Ht.
Qed.

(** Every word of [split s] occurs in [s]. *)
Lemma split_substr s w : w ∈ split s → substr w s.
Proof.
  revert w. induction s as [|c s IH]; intros w; [by intros ?%elem_of_nil|].
  destruct (isspace c) eqn:Hc.
  { simpl. rewrite Hc. intros Hw. by apply substr_cons, IH. }
  destruct (split (String c s)) as [|w0 ws] eqn:Hsp; [by intros ?%elem_of_nil|].
  intros [->|Hw]%elem_of_cons.
  - destruct (split_first_prefix c s w0 ws Hc Hsp) as [t Ht].
    rewrite Ht. by exists "", t.
  - apply substr_cons, IH.
    revert Hsp. simpl. rewrite Hc. destruct s as [|c' s']; [intros [= <- <-]; by apply elem_of_nil in Hw|].
    destruct (isspace c') eqn:Hc'.
    + intros [= <- <-]. done.
    + destruct (split (String c' s')) as [|w1 ws1].
      * intros [= <- <-]. by apply elem_of_nil in Hw.
      * intros [= <- <-]. by right.
Qed.

End StringFacts.

(** ** Roster loader: which rows are kept *)

Section Roster.

Implicit Types (e loc rest : string) (r : row).

Local Arguments String.append !_ _ : simpl nomatch.

Lemma before_char_no_sep c s : ¬ substr (String c "") (before_char c s).
Proof.
  induction s as [|a s IH]; simpl.
  - intros ([|??] & b & Hab); simpl in Hab; discriminate.
  - destruct (ascii_dec a c) as [->|Hne].
    + intros ([|??] & b & Hab); simpl in Hab; discriminate.
    + intros ([|a' p] & b & Hab); simpl in Hab.
      * by simplify_eq.
      * apply IH. exists p, b. by simplify_eq.
Qed.

Lemma before_char_split c s :
  substr (String c "") s → ∃ rest, s = before_char c s +:+ String c "" +:+ rest.
Proof.
  induction s as [|a s IH]; simpl.
  - intros ([|??] & b & Hab); simpl in Hab; discriminate.
  - destruct (ascii_dec a c) as [->|Hne].
    + intros _. by exists s.
    + intros ([|a' p] & b & Hab); simpl in Hab; [by simplify_eq|].
      destruct IH as [rest Hrest]; [exists p, b; by simplify_eq|].
      exists rest. simpl. f_equal. exact Hrest.
Qed.

Lemma before_char_app c loc rest :
  ¬ substr (String c "") loc →
  before_char c (loc +:+ String c "" +:+ rest) = loc.
Proof.
  induction loc as [|a loc IH]; simpl; intros Hno.
  - by destruct (ascii_dec c c).
  - destruct (ascii_dec a c) as [->|Hne].
    + destruct Hno. by exists "", loc.
    + f_equal. apply IH. intros Hs. by apply Hno, substr_cons.
Qed.

Lemma skip_internal_domain_spec e :
  skip_internal_domain e = true ↔ in_internal_domain e.
Proof.
  unfold skip_internal_domain, in_internal_domain.
  rewrite orb_true_iff, !endswith_spec. split.
  - intros [[p ->] | [p ->]].
    + exists p, "arda.cards". split; [set_solver | done].
    + exists p, "arda.com". split; [set_solver | done].
  - intros (p & d & Hd & ->).
    apply elem_of_cons in Hd as [-> | Hd]; [left; by exists p|].
    apply list_elem_of_singleton in Hd as ->. right; by exists p.
Qed.

Lemma skip_test_account_spec e :
  skip_test_account e = true ↔ is_test_account e.
Proof.
  unfold skip_test_account, is_test_account. split.
  - destruct (contains "test" (lower e) && contains "@" e) eqn:Hg; [|done].
    apply andb_true_iff in Hg as [_ Hat]. apply contains_spec in Hat.
    intros [t Ht]%startswith_spec.
    destruct (before_char_split "@" e Hat) as [rest Hrest].
    exists (before_char "@" e), rest, t.
    split_and!; [done | apply before_char_no_sep | done].
  - intros (loc & rest & t & -> & Hno & Hlow).
    assert (contains "test" (lower (loc +:+ "@" +:+ rest)) = true) as ->.
    { apply contains_spec. rewrite lower_app, Hlow.
      exists "", (t +:+ lower ("@" +:+ rest)). by rewrite sapp_assoc. }
    assert (contains "@" (loc +:+ "@" +:+ rest) = true) as ->.
    { apply contains_spec. by exists loc, rest. }
    cbn [andb]. rewrite (before_char_app "@" loc rest Hno).
    apply startswith_spec. by exists t.
Qed.

Lemma skipped_spec r :
  skipped r = true ↔
  in_internal_domain (strip (Email r)) ∨ is_test_account (strip (Email r)) ∨
  is_alias (strip (Email r)).
Proof.
  unfold skipped.
  rewrite <-skip_internal_domain_spec, <-skip_test_account_spec.
  unfold is_alias. rewrite <-startswith_spec. fold (skip_alias (strip (Email r))).
  destruct (skip_internal_domain _), (skip_test_account _), (skip_alias _);
    intuition congruence.
Qed.

Lemma load_fold_users rows users tenants :
  (foldl load_step (users, tenants) rows).1 =
  users ++ filter (λ r, skipped r = false) rows.
Proof.
  revert users tenants. induction rows as [|r rows IH]; intros users tenants.
  - by rewrite app_nil_r.
  - simpl. destruct (skipped r) eqn:Hs.
    + rewrite IH. rewrite filter_cons_False; [done | congruence].
    + rewrite filter_cons_True by done.
      destruct (negb _ && negb _); rewrite IH; by rewrite <-app_assoc.
Qed.

(** The users list is the roster minus the skipped rows, in order. *)
Lemma load_users_filter rows :
  (load_cognito_users rows).1 = filter (λ r, skipped r = false) rows.
Proof. unfold load_cognito_users. by rewrite load_fold_users. Qed.

End Roster.

(** C3, as the code has it: a roster row is left out of the filtered
    user list exactly when its stripped e-mail (1) ends with ["@"] and
    one of the internal domains, or (2) contains an ["@"] and its local
    part, lower-cased, starts with ["test"], or (3) starts with the
    distribution-alias prefix. *)
Theorem roster_filter_rules (rows : list row) (r : row) :
  r ∈ (load_cognito_users rows).1 ↔
  r ∈ rows ∧
  ¬ (in_internal_domain (strip (Email r)) ∨ is_test_account (strip (Email r)) ∨
     is_alias (strip (Email r))).
Proof.
  rewrite load_users_filter, list_elem_of_filter, <-skipped_spec.
  destruct (skipped r); intuition congruence.
Qed.

(** ** Deal matching: deduplication by identifier *)

Section Dedup.

Implicit Types (d : deal) (ds : list deal) (st : gset string * list deal).

Lemma dedup_filter_comm (Q : string → Prop) `{!∀ x, Decision (Q x)} ds :
  filter (λ d, Q (deal_id d)) (dedup_by_id ds) =
  dedup_by_id (filter (λ d, Q (deal_id d)) ds).
Proof.
  induction ds as [|d ds IH]; [done|]. simpl.
  destruct (decide (Q (deal_id d))) as [HQ|HQ].
  - rewrite !filter_cons_True by done. simpl. f_equal.
    rewrite <-IH, !list_filter_filter. apply list_filter_iff. tauto.
  - rewrite !filter_cons_False by done.
    rewrite <-IH, list_filter_filter. apply list_filter_iff.
    intros d'. split; [tauto|]. intros HQ'. split; [done|]. congruence.
Qed.

Lemma NoDup_fmap_filter (P : deal → Prop) `{!∀ x, Decision (P x)} ds :
  NoDup (deal_id <$> ds) → NoDup (deal_id <$> filter P ds).
Proof.
  induction ds as [|d ds IH]; [done|]. simpl.
  intros [Hd Hds]%NoDup_cons. destruct (decide (P d)).
  - rewrite filter_cons_True by done. simpl. apply NoDup_cons. split; [|auto].
    intros (d' & Heq & Hd')%list_elem_of_fmap.
    apply list_elem_of_filter in Hd' as [_ Hd'].
    apply Hd. rewrite Heq. by apply list_elem_of_fmap_2.
  - rewrite filter_cons_False by done. auto.
Qed.

(** No identifier occurs twice after deduplication. *)
Lemma dedup_NoDup ds : NoDup (deal_id <$> dedup_by_id ds).
Proof.
  induction ds as [|d ds IH]; [constructor|]. simpl.
  apply NoDup_cons. split.
  - intros (d' & Heq & Hd')%list_elem_of_fmap.
    apply list_elem_of_filter in Hd' as [Hne _]. congruence.
  - by apply NoDup_fmap_filter.
Qed.

Lemma add_unseen_seen st d : deal_id d ∈ st.1 → add_unseen st d = st.
Proof. intros Hin. unfold add_unseen. by rewrite decide_True. Qed.

Lemma add_unseen_fresh st d :
  deal_id d ∉ st.1 → add_unseen st d = ({[deal_id d]} ∪ st.1, st.2 ++ [d]).
Proof. intros Hin. unfold add_unseen. by rewrite decide_False. Qed.

(** The [seen_ids] loop appends the first deal of every identifier not
    seen before. *)
Lemma foldl_add_unseen ds st :
  (foldl add_unseen st ds).2 =
  st.2 ++ dedup_by_id (filter (λ d, deal_id d ∉ st.1) ds).
Proof.
  revert st. induction ds as [|d ds IH]; intros st; simpl.
  - by rewrite app_nil_r.
  - destruct (decide (deal_id d ∈ st.1)) as [Hin|Hin].
    + rewrite (add_unseen_seen st d Hin), IH.
      rewrite filter_cons_False; [done | tauto].
    + rewrite (add_unseen_fresh st d Hin), IH.
      rewrite filter_cons_True by done. simpl. rewrite <-app_assoc. simpl.
      do 2 f_equal.
      pose proof (dedup_filter_comm (λ x, x ≠ deal_id d)
                    (filter (λ d', deal_id d' ∉ st.1) ds)) as Hc.
      cbv beta in Hc. rewrite Hc, list_filter_filter.
      f_equal. apply list_filter_iff. intros d'.
      rewrite elem_of_union, elem_of_singleton. tauto.
Qed.

Lemma foldl_add_unseen_empty ds :
  (foldl add_unseen (∅, []) ds).2 = dedup_by_id ds.
Proof.
  rewrite foldl_add_unseen. simpl. f_equal.
  induction ds as [|d ds IH]; [done|].
  rewrite filter_cons_True by set_solver. by f_equal.
Qed.

(** The inner loop of the keyword pass over one bucket. *)
Lemma inner_loop_filter cn ds st :
  foldl (λ st d, if relevant cn d then add_unseen st d else st) st ds =
  foldl add_unseen st (filter (λ d, relevant cn d = true) ds).
Proof.
  revert st. induction ds as [|d ds IH]; intros st; [done|]. simpl.
  destruct (relevant cn d) eqn:Hr.
  - rewrite filter_cons_True by done. simpl. apply IH.
  - rewrite filter_cons_False by congruence. apply IH.
Qed.

Lemma keyword_words_fold (idx : gmap string (list deal)) cn ws st :
  foldl (λ st word,
           if long_word word then
             match idx !! word with
             | Some bucket =>
                 foldl (λ st d, if relevant cn d then add_unseen st d else st)
                       st bucket
             | None => st
             end
           else st) st ws =
  foldl add_unseen st
        (filter (λ d, relevant cn d = true) (concat (map (word_bucket idx) ws))).
Proof.
  revert st. induction ws as [|w ws IH]; intros st; [done|]. simpl.
  rewrite filter_app, foldl_app, IH. f_equal.
  unfold word_bucket. destruct (long_word w); [|done].
  destruct (idx !! w) as [b|]; [|done]. simpl. apply inner_loop_filter.
Qed.

(** The keyword pass is the [seen_ids] loop over the relevant
    candidates. *)
Lemma keyword_pass_fold (idx : gmap string (list deal)) cn st :
  keyword_pass idx cn st =
  foldl add_unseen st (filter (λ d, relevant cn d = true) (keyword_candidates idx cn)).
Proof. apply keyword_words_fold. Qed.

(** The two passes of [match_deals], for any index. *)
Lemma match_deals_passes (idx : gmap string (list deal)) (company_name : pyval) :
  let cn := lower (or_empty company_name) in
  match_deals idx company_name =
  match default [] (idx !! cn) with
  | [] => dedup_by_id (filter (λ d, relevant cn d = true) (keyword_candidates idx cn))
  | bucket => dedup_by_id bucket
  end.
Proof.
  intros cn. unfold match_deals. fold cn.
  destruct (idx !! cn) as [[|d b]|] eqn:Hb; simpl.
  - by rewrite keyword_pass_fold, foldl_add_unseen_empty.
  - pose proof (foldl_add_unseen_empty (d :: b)) as He. simpl in He.
    rewrite He. done.
  - by rewrite keyword_pass_fold, foldl_add_unseen_empty.
Qed.

End Dedup.

(** ** Deal index: what a bucket holds *)

Section Index.

Implicit Types (d : deal) (idx : gmap string (list deal)).

Lemma dd_append_ok idx k d :
  index_ok idx → indexed_under k d → index_ok (dd_append idx k d).
Proof.
  intros Hok Hk k' b. unfold dd_append.
  destruct (decide (k = k')) as [<-|Hne].
  - rewrite lookup_insert_eq. intros [= <-]. split.
    + intros Hnil. by apply app_eq_nil in Hnil as [_ ?].
    + intros d' [Hd'|Hd']%elem_of_app.
      * destruct (idx !! k) as [b0|] eqn:Hb0; simpl in Hd'.
        -- by apply (Hok k b0).
        -- by apply elem_of_nil in Hd'.
      * by apply list_elem_of_singleton in Hd' as ->.
  - rewrite lookup_insert_ne by done. apply Hok.
Qed.

Lemma index_words_ok idx d ws :
  index_ok idx → ws ⊆ split (company_part d) →
  index_ok (foldl (λ idx word,
                     if (3 <? len word)%nat then dd_append idx word d else idx)
                  idx ws).
Proof.
  revert idx. induction ws as [|w ws IH]; intros idx Hok Hws; [done|]. simpl.
  apply IH; [|set_solver].
  destruct (3 <? len w)%nat eqn:Hlen; [|done].
  apply dd_append_ok; [done|]. right. split; [set_solver | done].
Qed.

Lemma index_step_ok idx d : index_ok idx → index_ok (index_step idx d).
Proof.
  intros Hok. unfold index_step. apply index_words_ok; [|done].
  apply dd_append_ok; [done | by left].
Qed.

Lemma build_index_ok_from idx ds : index_ok idx → index_ok (foldl index_step idx ds).
Proof.
  revert idx. induction ds as [|d ds IH]; intros idx Hok; [done|].
  simpl. by apply IH, index_step_ok.
Qed.

Lemma build_index_ok ds : index_ok (build_index ds).
Proof. apply build_index_ok_from. intros k b. by rewrite lookup_empty. Qed.

(** The company part of a deal occurs in its lower-cased name. *)
Lemma company_part_substr d : substr (company_part d) (lower (dealname d)).
Proof.
  unfold company_part.
  pose proof (strip_substr (dealname d)) as Hstrip.
  destruct (contains " - " (strip (dealname d))).
  - apply substr_lower. eapply substr_trans; [apply strip_substr|].
    destruct (before_last " - " (strip (dealname d))) as [q|] eqn:Hq; simpl; [|done].
    apply before_last_prefix in Hq as [t Ht].
    eapply substr_trans; [|exact Hstrip]. rewrite Ht. by exists "", (" - " +:+ t).
  - by apply substr_lower.
Qed.

(** A key longer than three characters occurs in the lower-cased name of
    every deal of its bucket. *)
Lemma indexed_under_substr k d :
  indexed_under k d → substr k (lower (dealname d)).
Proof.
  intros [-> | [Hk _]]; [apply company_part_substr|].
  eapply substr_trans; [by apply split_substr | apply company_part_substr].
Qed.

(** In a built index the relevance test passes on every candidate of the
    keyword pass. *)
Lemma candidates_relevant ds cn :
  Forall (λ d, relevant cn d = true) (keyword_candidates (build_index ds) cn).
Proof.
  apply Forall_forall. intros d Hd. unfold keyword_candidates in Hd.
  apply list_elem_of_In, in_concat in Hd as (b & Hb & Hdb).
  apply list_elem_of_In in Hdb. apply list_elem_of_In in Hb.
  apply list_elem_of_fmap in Hb as (w & -> & Hw).
  unfold word_bucket in Hdb. destruct (long_word w) eqn:Hlong; [|by apply elem_of_nil in Hdb].
  destruct (build_index ds !! w) as [b|] eqn:Hb; simpl in Hdb; [|by apply elem_of_nil in Hdb].
  destruct (build_index_ok ds w b Hb) as [_ Hall].
  unfold relevant. apply orb_true_iff. right.
  apply existsb_exists. exists w. split.
  - apply list_elem_of_In, list_elem_of_filter. done.
  - apply contains_spec, indexed_under_substr. auto.
Qed.

Lemma filter_Forall_id {A} (P : A → Prop) `{!∀ x, Decision (P x)} (l : list A) :
  Forall P l → filter P l = l.
Proof.
  induction 1 as [|x l Hx Hl IH]; [done|].
  rewrite filter_cons_True by done. by f_equal.
Qed.

Lemma filter_Forall_not {A} (P : A → Prop) `{!∀ x, Decision (P x)} (l : list A) :
  Forall (λ x, ¬ P x) l → filter P l = [].
Proof.
  induction 1 as [|x l Hx Hl IH]; [done|].
  by rewrite filter_cons_False.
Qed.

(** The two passes over a built index, whose buckets are never empty. *)
Lemma match_deals_built (all_deals : list deal) (company_name : pyval) :
  match_deals (build_index all_deals) company_name =
  match build_index all_deals !! lower (or_empty company_name) with
  | Some bucket => dedup_by_id bucket
  | None =>
      dedup_by_id (filter (λ d, relevant (lower (or_empty company_name)) d = true)
                          (keyword_candidates (build_index all_deals)
                                              (lower (or_empty company_name))))
  end.
Proof.
  rewrite match_deals_passes. cbv zeta.
  destruct (build_index all_deals !! _) as [b|] eqn:Hb; simpl; [|done].
  destruct (build_index_ok all_deals _ b Hb) as [Hne _]. by destruct b.
Qed.

End Index.

(** C4, as the code has it: the company name is lower-cased (not
    trimmed); when it is a key of the built index the result is the
    bucket under that key, deduplicated by id, and the keyword pass does
    not run; otherwise the result is the deduplicated list of the
    candidates, read from the buckets of its words longer than three
    characters, that pass the relevance test. The empty list is a
    possible result: it is the result on an empty index. *)
Theorem match_deals_two_stage (all_deals : list deal) (company_name : pyval) :
  let deal_index := build_index all_deals in
  let cn_lower := lower (or_empty company_name) in
  match_deals deal_index company_name =
  match deal_index !! cn_lower with
  | Some bucket => dedup_by_id bucket
  | None =>
      dedup_by_id (filter (λ d, relevant cn_lower d = true)
                          (keyword_candidates deal_index cn_lower))
  end ∧
  match_deals (build_index []) company_name = [].
Proof.
  split; [apply match_deals_built|].
  rewrite match_deals_built. unfold build_index. simpl. rewrite lookup_empty.
  unfold keyword_candidates.
  induction (split (lower (or_empty company_name))) as [|w ws IH]; [done|].
  simpl. unfold word_bucket at 1. rewrite lookup_empty. by destruct (long_word w).
Qed.

(** C10: in the keyword pass over a built index every candidate passes
    the relevance test, so the pass returns the deduplicated
    concatenation of the buckets of the company name's words longer than
    three characters. *)
Theorem keyword_guard_filters_nothing (all_deals : list deal) (company_name : pyval) :
  let deal_index := build_index all_deals in
  let cn_lower := lower (or_empty company_name) in
  Forall (λ d, relevant cn_lower d = true) (keyword_candidates deal_index cn_lower) ∧
  (keyword_pass deal_index cn_lower (∅, [])).2 =
    dedup_by_id (keyword_candidates deal_index cn_lower) ∧
  match deal_index !! cn_lower with
  | Some _ => True
  | None => match_deals deal_index company_name =
            dedup_by_id (keyword_candidates deal_index cn_lower)
  end.
Proof.
  intros idx cn. pose proof (candidates_relevant all_deals cn) as Hrel.
  split_and!; [done | |].
  - rewrite keyword_pass_fold, foldl_add_unseen_empty.
    by rewrite filter_Forall_id.
  - pose proof (match_deals_built all_deals company_name) as Hm.
    fold idx cn in Hm.
    destruct (idx !! cn); [done|]. by rewrite Hm, filter_Forall_id.
Qed.

(** C6: the journey lists one entry per matched deal, and no two matched
    deals share an identifier, whatever the index holds: a deal that
    sits in several buckets, or twice in one, is listed once. *)
Theorem all_deals_deduplicated
    (deal_index : gmap string (list deal)) (tid : string) (users : list row)
    (tenant_hs_contacts : list contact) (company_name : pyval) :
  let matching_deals := match_deals deal_index company_name in
  all_deals (build_journey deal_index tid users tenant_hs_contacts company_name)
    = map entry_of matching_deals ∧
  NoDup (deal_id <$> matching_deals) ∧
  Forall (λ d, length (filter (λ d', deal_id d' = deal_id d) matching_deals) = 1)
         matching_deals.
Proof.
  intros m. split; [done|].
  assert (NoDup (deal_id <$> m)) as Hnd.
  { unfold m. rewrite match_deals_passes. cbv zeta.
    destruct (default [] _); apply dedup_NoDup. }
  split; [done|]. clearbody m. apply Forall_forall. intros d Hd.
  induction m as [|x m IH]; [by apply elem_of_nil in Hd|].
  simpl in Hnd. apply NoDup_cons in Hnd as [Hx Hnd].
  destruct (decide (deal_id x = deal_id d)) as [Heq|Hne].
  - rewrite filter_cons_True by done. simpl. f_equal.
    apply length_zero_iff_nil, filter_Forall_not, Forall_forall.
    intros d' Hd' Hid. apply Hx. rewrite Heq, <-Hid. by apply list_elem_of_fmap_2.
  - rewrite filter_cons_False by done. apply IH; [done|].
    apply elem_of_cons in Hd as [->|Hd]; [done | done].
Qed.

(** C3, counterexample: rule 2 as worded does not describe the loader,
    whichever way the case of the local part is read. Compared as it
    is written, [Test.User@example.com] matches no rule, yet the loader
    drops it (it lower-cases the local part). Compared lower-cased, the
    address [tester] (no ["@"]) matches rule 2, yet the loader keeps
    it (it applies the test only to an e-mail with an ["@"]). *)
Lemma roster_filter_as_stated_fails :
  ¬ (∀ (rows : list row) (r : row),
       r ∈ rows →
       (r ∉ (load_cognito_users rows).1 ↔ excluded_as_stated false r = true)) ∧
  ¬ (∀ (rows : list row) (r : row),
       r ∈ rows →
       (r ∉ (load_cognito_users rows).1 ↔ excluded_as_stated true r = true)).
Proof.
  split; intros H.
  - destruct (H [capital_test_row] capital_test_row) as [Hdrop _]; [by left|].
    assert (excluded_as_stated false capital_test_row = false) as Hno
      by (vm_compute; reflexivity).
    rewrite Hno in Hdrop. discriminate Hdrop.
    assert ((load_cognito_users [capital_test_row]).1 = []) as ->
      by (vm_compute; reflexivity).
    apply not_elem_of_nil.
  - destruct (H [no_at_row] no_at_row) as [_ Hkeep]; [by left|].
    apply Hkeep; [vm_compute; reflexivity|].
    assert ((load_cognito_users [no_at_row]).1 = [no_at_row]) as ->
      by (vm_compute; reflexivity).
    by left.
Qed.

(** C4, counterexample: for the company name ["Acme Corp "] (a trailing
    space) the trimmed name is a key whose bucket holds deal 1 only,
    but the code looks up the untrimmed name, misses, and returns deals
    1 and 2 from the keyword pass. *)
Lemma match_deals_as_stated_fails :
  ¬ (∀ (all_deals : list deal) (company_name : pyval),
       match_deals (build_index all_deals) company_name =
       match_deals_as_stated (build_index all_deals) company_name).
Proof.
  intros H. specialize (H [acme_renewal; acme_labs] (PStr "Acme Corp ")).
  assert (match_deals (build_index [acme_renewal; acme_labs]) (PStr "Acme Corp ")
          = [acme_renewal; acme_labs]) as Hcode by (vm_compute; reflexivity).
  assert (match_deals_as_stated (build_index [acme_renewal; acme_labs]) (PStr "Acme Corp ")
          = [acme_renewal]) as Hspec by (vm_compute; reflexivity).
  rewrite Hcode, Hspec in H. discriminate H.
Qed.

(** ** Best deal *)

Section BestDeal.

Implicit Types (d : deal) (ds : list deal).

Lemma pyval_eqb_eq (a b : pyval) : pyval_eqb a b = true ↔ a = b.
Proof.
  destruct a as [|x], b as [|y]; simpl; try (split; congruence).
  rewrite String.eqb_eq. split; congruence.
Qed.

Lemma is_closed_won_spec d : is_closed_won d = true ↔ closed_won d.
Proof. apply pyval_eqb_eq. Qed.

Lemma losing_spec d : not_losing d = false ↔ losing d.
Proof.
  unfold not_losing, losing. rewrite negb_false_iff, existsb_exists. split.
  - intros (v & Hv & Heq). apply pyval_eqb_eq in Heq as ->. by apply list_elem_of_In.
  - intros Hin. exists (mapped_stage d). split; [by apply list_elem_of_In|].
    by apply pyval_eqb_eq.
Qed.

Lemma not_losing_spec d : not_losing d = true ↔ ¬ losing d.
Proof. rewrite <-losing_spec. by destruct (not_losing d). Qed.

(** What the loop with [break] finds. *)
Lemma first_passing_spec (test : deal → bool) ds :
  match first_passing test ds with
  | Some d => ∃ i, first_at (λ d, test d = true) ds i d
  | None => ∀ d, d ∈ ds → test d = false
  end.
Proof.
  induction ds as [|x ds IH]; simpl; [by intros ? ?%elem_of_nil|].
  destruct (test x) eqn:Hx.
  - exists 0. split_and!; [done | done | intros; lia].
  - destruct (first_passing test ds) as [d|].
    + destruct IH as (i & Hi & Hd & Hfirst). exists (S i). split_and!; [done | done |].
      intros [|j] d' Hj Hd'; simpl in Hd'; [congruence|].
      apply (Hfirst j); [lia | done].
    + intros d [->|Hd]%elem_of_cons; auto.
Qed.

Lemma first_at_iff (P Q : deal → Prop) ds i d :
  (∀ d, P d ↔ Q d) → first_at P ds i d → first_at Q ds i d.
Proof.
  intros HPQ (Hi & Hd & Hfirst). split_and!; [done | by apply HPQ |].
  intros j d' Hj Hd' HQ. by apply (Hfirst j d' Hj Hd'), HPQ.
Qed.

Lemma first_at_unique (P : deal → Prop) ds i i' d d' :
  first_at P ds i d → first_at P ds i' d' → d = d'.
Proof.
  intros (Hi & Hd & Hfirst) (Hi' & Hd' & Hfirst').
  destruct (Nat.lt_trichotomy i i') as [Hlt | [-> | Hlt]].
  - by destruct (Hfirst' i d Hlt Hi).
  - congruence.
  - by destruct (Hfirst i' d' Hlt Hi').
Qed.

Lemma selected_unique ds d d' : selected ds d → selected ds d' → d = d'.
Proof.
  intros [[i Hi] | [(Hnone & i & Hi) | (Hnone & Hall & H0)]]
         [[i' Hi'] | [(Hnone' & i' & Hi') | (Hnone' & Hall' & H0')]].
  - by eapply first_at_unique.
  - destruct Hi as (Hi & Hd & _). destruct (Hnone' d); [|done].
    by eapply list_elem_of_lookup_2.
  - destruct Hi as (Hi & Hd & _). destruct (Hnone' d); [|done].
    by eapply list_elem_of_lookup_2.
  - destruct Hi' as (Hi' & Hd' & _). destruct (Hnone d'); [|done].
    by eapply list_elem_of_lookup_2.
  - by eapply first_at_unique.
  - destruct Hi as (Hi & Hd & _). destruct Hd. apply Hall'.
    by eapply list_elem_of_lookup_2.
  - destruct Hi' as (Hi' & Hd' & _). destruct (Hnone d'); [|done].
    by eapply list_elem_of_lookup_2.
  - destruct Hi' as (Hi' & Hd' & _). destruct Hd'. apply Hall.
    by eapply list_elem_of_lookup_2.
  - congruence.
Qed.

End BestDeal.

(** C2: on a non-empty sequence of matched deals a deal is selected:
    the first whose mapped stage is ["Closed Won"]; failing that, the
    first whose mapped stage is none of ["Unlikely"], ["Churn"],
    ["Closed Lost"]; failing that, the first deal. The policy leaves
    one choice only. *)
Theorem best_deal_selection (matching_deals : list deal) :
  matching_deals ≠ [] →
  ∃ d, best_deal_of matching_deals = Some d ∧
       selected matching_deals d ∧
       ∀ d', selected matching_deals d' → d' = d.
Proof.
  intros Hne.
  assert (∃ d, best_deal_of matching_deals = Some d ∧ selected matching_deals d)
    as (d & Hbest & Hsel).
  { unfold best_deal_of.
    pose proof (first_passing_spec is_closed_won matching_deals) as Hcw.
    destruct (first_passing is_closed_won matching_deals) as [d|].
    - exists d. split; [done|]. left. destruct Hcw as [i Hi]. exists i.
      eapply first_at_iff; [|exact Hi]. apply is_closed_won_spec.
    - assert (∀ d', d' ∈ matching_deals → ¬ closed_won d') as Hnone.
      { intros d' Hd' Hc. apply is_closed_won_spec in Hc.
        rewrite (Hcw d' Hd') in Hc. discriminate. }
      destruct matching_deals as [|d0 ds]; [done|].
      pose proof (first_passing_spec not_losing (d0 :: ds)) as Hnl.
      destruct (first_passing not_losing (d0 :: ds)) as [d|].
      + exists d. split; [done|]. right; left. split; [done|].
        destruct Hnl as [i Hi]. exists i.
        eapply first_at_iff; [|exact Hi]. apply not_losing_spec.
      + exists d0. split; [done|]. right; right. split_and!; [done | | done].
        intros d' Hd'. by apply losing_spec, Hnl. }
  exists d. split_and!; [done | done |].
  intros d' Hd'. by apply (selected_unique matching_deals).
Qed.

(** The policy on a lost, a trial and a won deal, in this order. *)
Lemma best_deal_selection_witness :
  ∃ d, best_deal_of [acme_labs; acme_pilot; acme_renewal] = Some d ∧
       selected [acme_labs; acme_pilot; acme_renewal] d ∧
       ∀ d', selected [acme_labs; acme_pilot; acme_renewal] d' → d' = d.
Proof. apply (best_deal_selection [acme_labs; acme_pilot; acme_renewal]). discriminate. Defined.

(** ** Merge policies over the matched contacts *)

Section Merge.

Implicit Types (hc : contact) (cs pre post : list contact) (k : string).

Lemma first_truthy_skip k dflt pre cs :
  Forall (empty_at k) pre → first_truthy k dflt (pre ++ cs) = first_truthy k dflt cs.
Proof.
  induction 1 as [|hc pre Hhc _ IH]; [done|]. simpl.
  unfold empty_at in Hhc. by rewrite Hhc.
Qed.

(** First non-empty wins. *)
Lemma first_truthy_first k dflt pre hc post :
  Forall (empty_at k) pre → truthy (get (contact_properties hc) k) = true →
  first_truthy k dflt (pre ++ hc :: post) = get (contact_properties hc) k.
Proof. intros Hpre Hhc. rewrite first_truthy_skip by done. simpl. by rewrite Hhc. Qed.

Lemma first_truthy_none k dflt cs :
  Forall (empty_at k) cs → first_truthy k dflt cs = dflt.
Proof.
  intros Hcs. rewrite <-(app_nil_r cs). by rewrite first_truthy_skip.
Qed.

Lemma last_truthy_fold k acc post :
  Forall (empty_at k) post →
  foldl (λ acc hc, let v := get (contact_properties hc) k in
                   if truthy v then v else acc) acc post = acc.
Proof.
  intros Hpost. revert acc.
  induction Hpost as [|hc post Hhc _ IH]; intros acc; [done|]. simpl.
  unfold empty_at in Hhc. rewrite Hhc. apply IH.
Qed.

(** Last non-empty wins. *)
Lemma last_truthy_last k pre hc post :
  Forall (empty_at k) post → truthy (get (contact_properties hc) k) = true →
  last_truthy k (pre ++ hc :: post) = get (contact_properties hc) k.
Proof.
  intros Hpost Hhc. unfold last_truthy. rewrite foldl_app. simpl.
  rewrite Hhc. by apply last_truthy_fold.
Qed.

Lemma last_truthy_none k cs : Forall (empty_at k) cs → last_truthy k cs = PNone.
Proof. apply last_truthy_fold. Qed.

End Merge.

(** C8: the journey's lifecycle stage is the [lifecyclestage] of the
    first matched contact, in iteration order, that has a non-empty one
    (["Unknown"] when none has); each lifecycle date is the value of the
    last matched contact that has a non-empty one ([None] when none
    has). With two contacts that both carry a stage and a lead date, the
    stage comes from the first and the date from the second. *)
Theorem lifecycle_merge_policies
    (deal_index : gmap string (list deal)) (tid : string) (users : list row)
    (cs : list contact) (company_name : pyval) :
  let j := build_journey deal_index tid users cs company_name in
  let value k (hc : contact) := get (contact_properties hc) k in
  (∀ pre hc post, cs = pre ++ hc :: post →
     Forall (empty_at "lifecyclestage") pre →
     truthy (value "lifecyclestage" hc) = true →
     lifecycle_stage j = value "lifecyclestage" hc) ∧
  (Forall (empty_at "lifecyclestage") cs → lifecycle_stage j = PStr "Unknown") ∧
  (∀ pre hc post, cs = pre ++ hc :: post →
     (Forall (empty_at "hs_lifecyclestage_lead_date") post →
      truthy (value "hs_lifecyclestage_lead_date" hc) = true →
      lead_date j = value "hs_lifecyclestage_lead_date" hc) ∧
     (Forall (empty_at "hs_lifecyclestage_opportunity_date") post →
      truthy (value "hs_lifecyclestage_opportunity_date" hc) = true →
      opportunity_date j = value "hs_lifecyclestage_opportunity_date" hc) ∧
     (Forall (empty_at "hs_lifecyclestage_customer_date") post →
      truthy (value "hs_lifecyclestage_customer_date" hc) = true →
      customer_date j = value "hs_lifecyclestage_customer_date" hc)) ∧
  (Forall (empty_at "hs_lifecyclestage_lead_date") cs → lead_date j = PNone) ∧
  (Forall (empty_at "hs_lifecyclestage_opportunity_date") cs →
     opportunity_date j = PNone) ∧
  (Forall (empty_at "hs_lifecyclestage_customer_date") cs → customer_date j = PNone) ∧
  (∀ c1 c2, cs = [c1; c2] →
     truthy (value "lifecyclestage" c1) = true →
     truthy (value "hs_lifecyclestage_lead_date" c2) = true →
     lifecycle_stage j = value "lifecyclestage" c1 ∧
     lead_date j = value "hs_lifecyclestage_lead_date" c2).
Proof.
  intros j value. unfold j, value. simpl. split_and!.
  - intros pre hc post -> Hpre Hhc. by apply first_truthy_first.
  - apply first_truthy_none.
  - intros pre hc post ->. split_and!; intros Hpost Hhc; by apply last_truthy_last.
  - apply last_truthy_none.
  - apply last_truthy_none.
  - apply last_truthy_none.
  - intros c1 c2 -> H1 H2. split.
    + by apply (first_truthy_first _ _ [] c1 [c2]).
    + by apply (last_truthy_last _ [c1] c2 []).
Qed.

(** The two policies on [early_contact] followed by [late_contact]. *)
Lemma lifecycle_merge_policies_witness :
  let j := build_journey ∅ "t1" [] [early_contact; late_contact] (PStr "Acme") in
  lifecycle_stage j = PStr "lead" ∧
  lead_date j = PStr "2024-03-02T00:00:00Z" ∧
  customer_date j = PNone.
Proof.
  intros j.
  destruct (lifecycle_merge_policies ∅ "t1" [] [early_contact; late_contact] (PStr "Acme"))
    as (Hfirst & _ & Hlast & _ & _ & Hnone & Hboth).
  split_and!.
  - apply (Hfirst [] early_contact [late_contact]); [reflexivity | constructor | reflexivity].
  - apply (Hlast [early_contact] late_contact []); [reflexivity | constructor | reflexivity].
  - apply Hnone. repeat constructor.
Defined.

(** ** Output order *)

Section Order.

Implicit Types (j x : journey) (js l : list journey).

Lemma key_le_total a b : key_le a b ∨ key_le b a.
Proof. apply (total String.le). Qed.

Lemma key_le_trans a b c : key_le a b → key_le b c → key_le a c.
Proof. unfold key_le. apply (transitivity (R := String.le)). Qed.

Lemma leb_false_key_le j x :
  String.leb (sort_key j) (sort_key x) = false → key_le x j.
Proof.
  intros Hf. destruct (key_le_total j x) as [Hle|Hle]; [|done].
  unfold key_le, String.le in Hle. rewrite Hf in Hle. done.
Qed.

Lemma insert_by_key_perm j l : insert_by_key j l ≡ₚ j :: l.
Proof.
  induction l as [|x l IH]; simpl; [done|].
  destruct (String.leb _ _); [done|]. rewrite IH. apply Permutation_swap.
Qed.

Lemma sort_journeys_perm js : sort_journeys js ≡ₚ js.
Proof.
  induction js as [|j js IH]; simpl; [done|].
  rewrite insert_by_key_perm. by f_equiv.
Qed.

Lemma insert_by_key_sorted j l :
  StronglySorted key_le l → StronglySorted key_le (insert_by_key j l).
Proof.
  induction 1 as [|x l Hl IH Hx]; simpl.
  - repeat constructor.
  - destruct (String.leb (sort_key j) (sort_key x)) eqn:Hle.
    + constructor; [by constructor|]. constructor.
      * unfold key_le, String.le. by rewrite Hle.
      * eapply Forall_impl; [exact Hx|]. intros y Hy.
        eapply key_le_trans; [|exact Hy]. unfold key_le, String.le. by rewrite Hle.
    + constructor; [done|].
      rewrite (insert_by_key_perm j l). constructor; [|done].
      by apply leb_false_key_le.
Qed.

Lemma sort_journeys_sorted js : StronglySorted key_le (sort_journeys js).
Proof.
  induction js as [|j js IH]; simpl; [constructor|]. by apply insert_by_key_sorted.
Qed.

(** Stability: journeys of equal key keep their relative order. *)
Lemma insert_by_key_stable v j l :
  filter (λ x, sort_key x = v) (insert_by_key j l) =
  filter (λ x, sort_key x = v) (j :: l).
Proof.
  induction l as [|x l IH]; simpl; [done|].
  destruct (String.leb (sort_key j) (sort_key x)) eqn:Hle; [done|].
  assert (sort_key x ≠ sort_key j) as Hne.
  { intros Heq. rewrite Heq in Hle.
    pose proof (reflexivity (R := String.le) (sort_key j)) as Hr.
    unfold String.le in Hr. by rewrite Hle in Hr. }
  destruct (decide (sort_key x = v)) as [Hx|Hx].
  - rewrite (filter_cons_True _ x) by done. rewrite IH.
    rewrite (filter_cons_False _ j) by congruence.
    rewrite (filter_cons_False _ j) by congruence.
    by rewrite (filter_cons_True _ x).
  - rewrite (filter_cons_False _ x) by done. rewrite IH.
    destruct (decide (sort_key j = v)).
    + rewrite !(filter_cons_True _ j) by done. by rewrite filter_cons_False.
    + rewrite !(filter_cons_False _ j) by done. by rewrite filter_cons_False.
Qed.

Lemma sort_journeys_stable v js :
  filter (λ x, sort_key x = v) (sort_journeys js) = filter (λ x, sort_key x = v) js.
Proof.
  induction js as [|j js IH]; simpl; [done|].
  rewrite insert_by_key_stable.
  destruct (decide (sort_key j = v)).
  - rewrite !(filter_cons_True _ j) by done. by f_equal.
  - by rewrite !(filter_cons_False _ j).
Qed.

Lemma sorted_lookup_le l i k a b :
  StronglySorted key_le l → l !! i = Some a → l !! k = Some b → i < k → key_le a b.
Proof.
  intros Hs. revert i k. induction Hs as [|x l Hl IH Hx]; intros i k Hi Hk Hik.
  - done.
  - destruct k as [|k]; [lia|]. simpl in Hk. destruct i as [|i]; simpl in Hi.
    + injection Hi as ->. eapply Forall_forall; [exact Hx|].
      by eapply list_elem_of_lookup_2.
    + apply (IH i k); [done | done | lia].
Qed.

Lemma ltb_not_le (a b : string) : String.ltb a b = true → ¬ String.le b a.
Proof.
  unfold String.ltb, String.le, String.leb. intros Hlt.
  rewrite String.compare_antisym.
  destruct (String.compare a b); try discriminate. simpl. tauto.
Qed.

Lemma lacks_both_key j : lacks_both j → sort_key j = "9999".
Proof. intros [Hft Hcs]. unfold sort_key. by rewrite Hft, Hcs. Qed.

(** A string that starts with a character below ["9"] sorts before the
    sentinel: every timestamp of a year before 9000. *)
Lemma below_sentinel c s :
  (nat_of_ascii c < 57)%nat → String.ltb (String c s) "9999" = true.
Proof.
  intros Hc. unfold String.ltb. simpl.
  assert (Ascii.compare c "9" = Lt) as ->; [|done].
  unfold Ascii.compare. apply N.compare_lt_iff.
  change (N_of_ascii "9") with 57%N.
  unfold nat_of_ascii in Hc. lia.
Qed.

Lemma digit_below_nine (c : ascii) :
  (nat_of_ascii c <= 57)%nat → Ascii.compare c "9" = Lt ∨ c = "9"%char.
Proof.
  intros Hc. unfold Ascii.compare. change (N_of_ascii "9") with 57%N.
  destruct (decide (N_of_ascii c = 57%N)) as [Heq|Hne].
  - right. rewrite <-(ascii_N_embedding c), Heq. reflexivity.
  - left. apply N.compare_lt_iff. unfold nat_of_ascii in Hc. lia.
Qed.

(** A string that starts with a four-digit year other than 9999 sorts
    before the sentinel: every ISO timestamp of a year before 9999. *)
Lemma year_below_sentinel (c1 c2 c3 c4 : ascii) (s : string) :
  (nat_of_ascii c1 <= 57)%nat → (nat_of_ascii c2 <= 57)%nat →
  (nat_of_ascii c3 <= 57)%nat → (nat_of_ascii c4 <= 57)%nat →
  ¬ (c1 = "9"%char ∧ c2 = "9"%char ∧ c3 = "9"%char ∧ c4 = "9"%char) →
  String.ltb (String c1 (String c2 (String c3 (String c4 s)))) "9999" = true.
Proof.
  intros H1 H2 H3 H4 Hnot. unfold String.ltb. simpl.
  destruct (digit_below_nine c1 H1) as [->| ->]; [done|].
  change (Ascii.compare "9" "9") with Eq.
  destruct (digit_below_nine c2 H2) as [->| ->]; [done|].
  change (Ascii.compare "9" "9") with Eq.
  destruct (digit_below_nine c3 H3) as [->| ->]; [done|].
  change (Ascii.compare "9" "9") with Eq.
  destruct (digit_below_nine c4 H4) as [->| ->]; [done|].
  by destruct Hnot.
Qed.

End Order.

(** C7, as the code has it: the journeys are stably sorted, ascending
    in string order, by the first-touch timestamp, else the signup
    timestamp, else ["9999"]; a journey lacking both timestamps comes
    after every journey whose key is below ["9999"] in string order. *)
Theorem journeys_sorted_by_key (journeys : list journey) :
  let sorted := sort_journeys journeys in
  sorted ≡ₚ journeys ∧
  StronglySorted key_le sorted ∧
  (∀ v, filter (λ j, sort_key j = v) sorted = filter (λ j, sort_key j = v) journeys) ∧
  (∀ j, truthy (first_touch j) = true → sort_key j = or_empty (first_touch j)) ∧
  (∀ j, truthy (first_touch j) = false → truthy (cognito_signup j) = true →
        sort_key j = or_empty (cognito_signup j)) ∧
  (∀ j, lacks_both j → sort_key j = "9999") ∧
  (∀ i k j j', sorted !! i = Some j → sorted !! k = Some j' →
               lacks_both j → String.ltb (sort_key j') "9999" = true → k < i).
Proof.
  intros sorted. split_and!.
  - apply sort_journeys_perm.
  - apply sort_journeys_sorted.
  - intros v. apply sort_journeys_stable.
  - intros j Hft. unfold sort_key. by rewrite Hft.
  - intros j Hft Hcs. unfold sort_key. by rewrite Hft, Hcs.
  - apply lacks_both_key.
  - intros i k j j' Hi Hk Hlack Hlt.
    apply ltb_not_le in Hlt. rewrite <-(lacks_both_key j Hlack) in Hlt.
    destruct (Nat.lt_trichotomy k i) as [|[->|Hik]]; [done | |].
    + destruct Hlt. assert (j = j') as -> by congruence.
      apply (reflexivity (R := String.le)).
    + destruct Hlt.
      apply (sorted_lookup_le sorted i k j j'); [apply sort_journeys_sorted | done..].
Qed.

(** A journey without timestamps is moved behind a dated one. *)
Lemma journeys_sorted_by_key_witness :
  sort_journeys [no_signal_journey; dated_journey] = [dated_journey; no_signal_journey] ∧
  0 < 1.
Proof.
  split; [vm_compute; reflexivity|].
  destruct (journeys_sorted_by_key [no_signal_journey; dated_journey])
    as (_ & _ & _ & _ & _ & _ & Hlast).
  apply (Hlast 1%nat 0%nat no_signal_journey dated_journey);
    [vm_compute; reflexivity | vm_compute; reflexivity | split; reflexivity
    | vm_compute; reflexivity].
Defined.

(** C7, counterexample: the sentinel ["9999"] is not maximal among the
    timestamps. A journey whose first touch is the ISO timestamp
    [9999-12-31T00:00:00Z] sorts after the journey that has no
    timestamp at all, since ["9999"] is a proper prefix of it. *)
Lemma lacking_both_not_last :
  ¬ (∀ (journeys : list journey) i k j j',
       sort_journeys journeys !! i = Some j →
       sort_journeys journeys !! k = Some j' →
       lacks_both j → ¬ lacks_both j' → k < i).
Proof.
  intros H.
  specialize (H [far_future_journey; no_signal_journey] 0 1
                no_signal_journey far_future_journey).
  assert (1 < 0) as Habs; [|lia].
  apply H.
  - vm_compute; reflexivity.
  - vm_compute; reflexivity.
  - split; reflexivity.
  - intros [Hft _]. vm_compute in Hft. discriminate.
Qed.

(** The first touch of that journey is a timestamp the date helpers
    parse. *)
Lemma far_future_parses :
  first_touch far_future_journey = PStr "9999-12-31T00:00:00Z" ∧
  ∃ dt, parse_iso iso_reference "9999-12-31T00:00:00Z" = Ok dt ∧ year dt = 9999%Z.
Proof. split; [reflexivity|]. eexists. split; vm_compute; reflexivity. Qed.

(** ** Credential *)

Section Credential.

Variables (environ : gmap string string) (net : network).
Hypothesis no_token : environ !! "HUBSPOT_API_TOKEN" = None.

Lemma API_TOKEN_absent : API_TOKEN environ = "".
Proof. unfold API_TOKEN. by rewrite no_token. Qed.

Lemma hubspot_get_bare sent endpoint params :
  ∃ req, hubspot_get environ net sent endpoint params = (net sent req, sent ++ [req]) ∧
         req_headers req = bare_headers.
Proof.
  unfold hubspot_get. eexists. split; [reflexivity|]. simpl.
  by rewrite API_TOKEN_absent.
Qed.

Lemma fetch_loop_sent fuel sent after all_deals :
  ∃ new, (fetch_loop fuel environ net sent after all_deals).2 = sent ++ new ∧
         Forall (λ req, req_headers req = bare_headers) new ∧
         (fuel ≠ 0 → new ≠ []).
Proof.
  revert sent after all_deals.
  induction fuel as [|fuel IH]; intros sent after all_deals.
  - exists []. simpl. by rewrite app_nil_r.
  - cbn [fetch_loop].
    destruct (hubspot_get_bare sent "/crm/v3/objects/deals"
                ([("limit", "100"); ("properties", deal_props)] ++
                 (if truthy after then [("after", or_empty after)] else [])))
      as (req & -> & Hreq).
    destruct (net sent req) as [pg|].
    + destruct (truthy (page_after pg)).
      * destruct (IH (sent ++ [req]) (page_after pg) (all_deals ++ page_results pg))
          as (new & -> & Hnew & _).
        exists (req :: new). rewrite <-app_assoc. split_and!; [done | by constructor | done].
      * exists [req]. simpl. split_and!; [done | by constructor | done].
    + exists [req]. simpl. split_and!; [done | by constructor | done].
Qed.

End Credential.

(** C1, as the code has it: when [HUBSPOT_API_TOKEN] is absent the token
    defaults to the empty string and nothing checks it; the deal fetch
    sends its first request all the same, and every request it sends
    carries the header [Authorization: "Bearer "] with an empty token. *)
Theorem absent_token_requests_sent
    (environ : gmap string string) (net : network) (fuel : nat) :
  environ !! "HUBSPOT_API_TOKEN" = None →
  API_TOKEN environ = "" ∧
  (fetch_all_deals (S fuel) environ net).2 ≠ [] ∧
  Forall (λ req, req_headers req = bare_headers)
         (fetch_all_deals (S fuel) environ net).2.
Proof.
  intros Hno. split; [by apply API_TOKEN_absent|].
  destruct (fetch_loop_sent environ net Hno (S fuel) [] PNone [])
    as (new & Hsent & Hall & Hne).
  unfold fetch_all_deals. rewrite Hsent. simpl. split; [by apply Hne | done].
Qed.

(** The empty environment against a remote side that refuses. *)
Lemma absent_token_requests_sent_witness :
  API_TOKEN ∅ = "" ∧
  (fetch_all_deals 1 ∅ refusing).2 ≠ [] ∧
  Forall (λ req, req_headers req = bare_headers) (fetch_all_deals 1 ∅ refusing).2.
Proof. apply (absent_token_requests_sent ∅ refusing 0). reflexivity. Defined.

(** C1, counterexample: with an empty environment and a remote side that
    refuses, the deal fetch still sends one request. *)
Lemma absent_token_not_fatal :
  ¬ (∀ (environ : gmap string string) (net : network) (fuel : nat),
       environ !! "HUBSPOT_API_TOKEN" = None →
       (fetch_all_deals fuel environ net).2 = []).
Proof.
  intros H. specialize (H ∅ refusing 1 eq_refl).
  vm_compute in H. discriminate H.
Qed.

(** ** Date helpers *)

Section DateFacts.

Variable fromisoformat : string → result datetime.

(** [format_date] returns a string on every argument. *)
Lemma format_date_total (v : pyval) : ∃ out, format_date fromisoformat v = Ok out.
Proof.
  unfold format_date. destruct (negb (truthy v) || _); [by eexists|].
  destruct (parse_iso fromisoformat (or_empty v)); simpl; by eexists.
Qed.

(** [days_between] returns on every pair of strings. *)
Lemma days_between_total (d1 d2 : string) : ∃ out, days_between fromisoformat d1 d2 = Ok out.
Proof.
  unfold days_between.
  destruct (parse_iso fromisoformat d1) as [dt1|]; simpl; [|by eexists].
  destruct (parse_iso fromisoformat d2) as [dt2|]; simpl; [|by eexists].
  destruct (datetime_sub dt2 dt1); simpl; by eexists.
Qed.

Lemma format_date_unparsed (s : string) (e : exn) :
  parse_iso fromisoformat s = Raise e → s ≠ "" →
  format_date fromisoformat (PStr s) = Ok (if (10 <=? len s)%nat then slice_to 10 s else s).
Proof.
  intros Hp Hs. unfold format_date.
  destruct (negb (truthy (PStr s)) || pyval_eqb (PStr s) (PStr "N/A")) eqn:Hg.
  - apply orb_true_iff in Hg as [Hg|Hg].
    + destruct s; [done | discriminate].
    + apply pyval_eqb_eq in Hg as [= ->]. done.
  - simpl. by rewrite Hp.
Qed.

Lemma days_between_unparsed (d1 d2 : string) (e : exn) :
  parse_iso fromisoformat d1 = Raise e ∨ parse_iso fromisoformat d2 = Raise e → days_between fromisoformat d1 d2 = Ok None.
Proof.
  unfold days_between. intros [Hp|Hp].
  - by rewrite Hp.
  - destruct (parse_iso fromisoformat d1); [|done]. simpl. by rewrite Hp.
Qed.

Lemma datetime_sub_self (dt : datetime) : datetime_sub dt dt = Ok 0%Z.
Proof.
  unfold datetime_sub. destruct (utcoffset dt); f_equal; lia.
Qed.

(** A date that parses is zero days from itself. *)
Lemma days_between_same (a : string) (dt : datetime) :
  parse_iso fromisoformat a = Ok dt → days_between fromisoformat a a = Ok (Some 0%Z).
Proof.
  intros Hp. unfold days_between. rewrite Hp. simpl.
  by rewrite datetime_sub_self.
Qed.

Lemma datetime_sub_swap (a b : datetime) (td : Z) :
  datetime_sub b a = Ok td → datetime_sub a b = Ok (- td)%Z.
Proof.
  unfold datetime_sub. destruct (utcoffset a), (utcoffset b); intros [= <-]; f_equal; lia.
Qed.

(** The two directions, for dates whose difference [td] is defined: the
    day count floors [td] one way and [- td] the other. *)
Lemma days_between_both (a b : string) (da db : datetime) (td : Z) :
  parse_iso fromisoformat a = Ok da → parse_iso fromisoformat b = Ok db → datetime_sub db da = Ok td →
  days_between fromisoformat a b = Ok (Some (Z.abs (td / day_us))) ∧
  days_between fromisoformat b a = Ok (Some (Z.abs (- td / day_us))).
Proof.
  intros Ha Hb Hsub. unfold days_between. rewrite Ha, Hb. simpl.
  rewrite Hsub, (datetime_sub_swap da db td Hsub). done.
Qed.

(** Symmetry holds when the two dates are a whole number of days apart. *)
Lemma days_between_sym_whole_days (a b : string) (da db : datetime) (td : Z) :
  parse_iso fromisoformat a = Ok da → parse_iso fromisoformat b = Ok db → datetime_sub db da = Ok td →
  (td mod day_us = 0)%Z → days_between fromisoformat a b = days_between fromisoformat b a.
Proof.
  intros Ha Hb Hsub Hmod.
  destruct (days_between_both a b da db td Ha Hb Hsub) as [-> ->].
  do 2 f_equal. unfold day_us in *.
  rewrite Z.div_opp_l_z by lia. lia.
Qed.

End DateFacts.

(** C5, at the failing input: two timestamps of the same day, twelve
    hours apart. Forward the difference is [+12h], whose [days] is 0;
    backward it is [-12h], which a [timedelta] stores as [-1 day +12h],
    so the absolute value of [days] is 1. *)
Theorem days_between_asymmetric :
  days_between iso_reference "2024-03-01T08:00:00Z" "2024-03-01T20:00:00Z" = Ok (Some 0%Z) ∧
  days_between iso_reference "2024-03-01T20:00:00Z" "2024-03-01T08:00:00Z" = Ok (Some 1%Z).
Proof. split; vm_compute; reflexivity. Qed.

(** C9, as the code has it: both helpers return on every argument; on a
    non-empty string that does not parse, [format_date] returns the
    string itself when it is shorter than 10 characters and its first 10
    characters otherwise; on the empty string it returns ["N/A"];
    [days_between] returns [None] when either string does not parse. *)
Theorem date_helpers_total (fromisoformat : string → result datetime) :
  (∀ v, ∃ out, format_date fromisoformat v = Ok out) ∧
  (∀ d1 d2, ∃ out, days_between fromisoformat d1 d2 = Ok out) ∧
  (∀ s e, parse_iso fromisoformat s = Raise e → s ≠ "" →
          format_date fromisoformat (PStr s) =
          Ok (if (10 <=? len s)%nat then slice_to 10 s else s)) ∧
  format_date fromisoformat (PStr "") = Ok "N/A" ∧
  (∀ d1 d2 e, parse_iso fromisoformat d1 = Raise e ∨ parse_iso fromisoformat d2 = Raise e →
              days_between fromisoformat d1 d2 = Ok None).
Proof.
  split_and!.
  - apply format_date_total.
  - apply days_between_total.
  - apply format_date_unparsed.
  - done.
  - apply days_between_unparsed.
Qed.

(** Month 13 and a word, on the reference parser. *)
Lemma date_helpers_total_witness :
  format_date iso_reference (PStr "2024-13-05T10:30:00Z") = Ok "2024-13-05" ∧
  format_date iso_reference (PStr "soon") = Ok "soon" ∧
  days_between iso_reference "2024-03-01T08:00:00Z" "soon" = Ok None.
Proof.
  destruct (date_helpers_total iso_reference) as (_ & _ & Hfmt & _ & Hdays).
  split_and!.
  - apply (Hfmt "2024-13-05T10:30:00Z" ValueError); [vm_compute; reflexivity | discriminate].
  - apply (Hfmt "soon" ValueError); [vm_compute; reflexivity | discriminate].
  - apply (Hdays _ "soon" ValueError). right. vm_compute; reflexivity.
Defined.

(** C9, counterexample: the empty string does not parse, and
    [format_date] returns ["N/A"] for it, neither the string nor a
    prefix of it. *)
Lemma format_date_empty_not_raw :
  ¬ (∀ (s : string) (e : exn),
       parse_iso iso_reference s = Raise e →
       format_date iso_reference (PStr s) = Ok s ∨
       format_date iso_reference (PStr s) = Ok (slice_to 10 s)).
Proof.
  intros H. destruct (H "" ValueError) as [Hraw|Hpre].
  - vm_compute; reflexivity.
  - vm_compute in Hraw. discriminate Hraw.
  - vm_compute in Hpre. discriminate Hpre.
Qed.

(* ================================================================== *)
(** * Part III. Further properties of the script                       *)
(* ================================================================== *)

(** ** Roster loader: the tenant groups *)

Section Grouping.

Implicit Types (r : row) (rows : list row) (t : string).

Lemma load_step_tenants users tenants r t :
  (load_step (users, tenants) r).2 !! t =
  if decide (grouped_under t r)
  then Some (default [] (tenants !! t) ++ [r])
  else tenants !! t.
Proof.
  destruct (decide (grouped_under t r)) as [(Hs & Ht & Hne1 & Hne2)|Hg].
  - unfold load_step. rewrite Hs, Ht. simpl.
    apply String.eqb_neq in Hne1, Hne2. rewrite Hne1, Hne2. simpl.
    unfold dd_append. by rewrite lookup_insert_eq.
  - unfold load_step. destruct (skipped r) eqn:Hs; [done|].
    destruct (Tenant r) as [t'|] eqn:Ht; simpl; [|done].
    destruct (String.eqb_spec t' ""); simpl; [done|].
    destruct (String.eqb_spec t' "None"); simpl; [done|].
    unfold dd_append. rewrite lookup_insert_ne; [done|].
    intros ->. by destruct Hg.
Qed.

Lemma load_fold_tenants rows users tenants t :
  (foldl load_step (users, tenants) rows).2 !! t =
  match filter (grouped_under t) rows with
  | [] => tenants !! t
  | g => Some (default [] (tenants !! t) ++ g)
  end.
Proof.
  revert users tenants. induction rows as [|r rows IH]; intros users tenants; [done|].
  cbn [foldl]. destruct (load_step (users, tenants) r) as [users' tenants'] eqn:Hstep.
  rewrite IH. pose proof (load_step_tenants users tenants r t) as Ht.
  rewrite Hstep in Ht. simpl in Ht. rewrite Ht.
  destruct (decide (grouped_under t r)) as [Hg|Hg].
  - rewrite filter_cons_True by done. simpl.
    destruct (filter (grouped_under t) rows); simpl; [done|].
    by rewrite <-app_assoc.
  - by rewrite filter_cons_False.
Qed.

End Grouping.

(** X1: the tenant groups. The group of [t] is the list, in roster
    order, of the kept rows whose [Tenant] is [t]; there is a group only
    when that list is not empty and [t] is neither empty nor ["None"]. *)
Theorem tenant_groups (rows : list row) (t : string) :
  (load_cognito_users rows).2 !! t =
  match filter (grouped_under t) rows with
  | [] => None
  | g => Some g
  end.
Proof.
  unfold load_cognito_users. rewrite load_fold_tenants, lookup_empty. done.
Qed.

(** ** CRM client: the paginated deal fetch *)

Section Pagination.

Variable environ : gmap string string.

Implicit Types (pg last : deals_page) (pages pre : list deals_page)
               (sent : list request) (after : pyval) (acc : list deal).

Local Arguments String.append !_ _ : simpl nomatch.

(** The request [hubspot_get] builds for the deal list. *)
Lemma deals_request environ' (net : network) sent after :
  ∃ req,
    hubspot_get environ' net sent "/crm/v3/objects/deals"
      ([("limit", "100"); ("properties", deal_props)] ++
       (if truthy after then [("after", or_empty after)] else []))
    = (net sent req, sent ++ [req]) ∧
    req_url req = deals_url after.
Proof.
  unfold hubspot_get. eexists. split; [reflexivity|].
  unfold deals_url. destruct (truthy after); simpl; reflexivity.
Qed.

(** The loop against a scripted remote side: the pages with a cursor
    are all read, each cursor is sent back, and the loop ends on the
    first page without one, or on the HTTP error that follows the last
    scripted page. *)
Lemma fetch_loop_serve pre tail done fuel sent after acc :
  Forall has_next pre →
  match tail with
  | [] => True
  | last :: more => truthy (page_after last) = false
  end →
  length sent = length done →
  length pre < fuel →
  let pages := done ++ pre ++ tail in
  let read := pre ++ take 1 tail in
  ∃ new,
    fetch_loop fuel environ (serve pages) sent after acc
      = (Some (acc ++ concat (map page_results read)), sent ++ new) ∧
    map req_url new = map deals_url (after :: map page_after pre).
Proof.
  intros Hpre Htail. revert done fuel sent after acc.
  induction Hpre as [|pg pre Hpg _ IH]; intros done fuel sent after acc Hlen Hfuel;
    cbv zeta.
  - destruct fuel as [|fuel]; [simpl in Hfuel; lia|].
    change (done ++ [] ++ tail) with (done ++ tail).
    change ([] ++ take 1 tail) with (take 1 tail). cbn [fetch_loop].
    destruct (deals_request environ (serve (done ++ tail)) sent after)
      as (req & -> & Hurl).
    assert (serve (done ++ tail) sent req = head tail) as ->.
    { unfold serve. rewrite Hlen, lookup_app_r by lia.
      rewrite Nat.sub_diag. by destruct tail. }
    exists [req]. destruct tail as [|last more]; simpl.
    + rewrite app_nil_r. by rewrite Hurl.
    + rewrite Htail, app_nil_r. by rewrite Hurl.
  - destruct fuel as [|fuel]; [simpl in Hfuel; lia|].
    change (done ++ (pg :: pre) ++ tail) with (done ++ pg :: pre ++ tail).
    change ((pg :: pre) ++ take 1 tail) with (pg :: pre ++ take 1 tail).
    cbn [fetch_loop].
    destruct (deals_request environ (serve (done ++ pg :: pre ++ tail)) sent after)
      as (req & -> & Hurl).
    assert (serve (done ++ pg :: pre ++ tail) sent req = Some pg) as ->.
    { unfold serve. rewrite Hlen, lookup_app_r by lia.
      by rewrite Nat.sub_diag. }
    unfold has_next in Hpg. rewrite Hpg.
    destruct (IH (done ++ [pg]) fuel (sent ++ [req]) (page_after pg)
                 (acc ++ page_results pg)) as (new & Hrun & Hurls).
    { rewrite !length_app. simpl. lia. }
    { simpl in Hfuel. lia. }
    rewrite <-(app_assoc done [pg]) in Hrun. cbn [app] in Hrun.
    exists (req :: new). split.
    + rewrite Hrun. cbn [map concat]. by rewrite <-!app_assoc.
    + cbn [map]. by rewrite Hurl, Hurls.
Qed.

(** Against a remote side that always answers with a cursor the loop
    never ends. *)
Lemma fetch_loop_endless (net : network) fuel sent after acc :
  (∀ sent req, ∃ pg, net sent req = Some pg ∧ has_next pg) →
  (fetch_loop fuel environ net sent after acc).1 = None ∧
  length (fetch_loop fuel environ net sent after acc).2 = length sent + fuel.
Proof.
  intros Hnet. revert sent after acc.
  induction fuel as [|fuel IH]; intros sent after acc; [simpl; split; [done | lia]|].
  cbn [fetch_loop].
  destruct (deals_request environ net sent after) as (req & -> & _).
  destruct (Hnet sent req) as (pg & -> & Hpg). unfold has_next in Hpg. rewrite Hpg.
  destruct (IH (sent ++ [req]) (page_after pg) (acc ++ page_results pg)) as [-> ->].
  rewrite length_app. simpl. split; [done | lia].
Qed.

End Pagination.

(** X2: pagination. When the remote side serves pages that each carry a
    cursor, followed by a page without one, the fetch returns the deals
    of all the pages in order, makes one request per page, and sends
    each cursor back as the [after] parameter of the next request. *)
Theorem fetch_all_pages (environ : gmap string string) (fuel : nat)
    (pre : list deals_page) (last : deals_page) :
  Forall has_next pre →
  truthy (page_after last) = false →
  length pre < fuel →
  ∃ sent,
    fetch_all_deals fuel environ (serve (pre ++ [last]))
      = (Some (concat (map page_results (pre ++ [last]))), sent) ∧
    length sent = length (pre ++ [last]) ∧
    map req_url sent = map deals_url (PNone :: map page_after pre).
Proof.
  intros Hpre Hlast Hfuel.
  destruct (fetch_loop_serve environ pre [last] [] fuel [] PNone [] Hpre Hlast eq_refl Hfuel)
    as (new & Hrun & Hurls).
  exists new. unfold fetch_all_deals. simpl in Hrun. split_and!; [done | | done].
  apply (f_equal length) in Hurls. rewrite !length_map in Hurls.
  rewrite length_app, Hurls. simpl. rewrite length_map. lia.
Qed.

(** Two pages, the first with the cursor ["100"]. *)
Lemma fetch_all_pages_witness :
  ∃ sent,
    fetch_all_deals 5 ∅ (serve ([page_one] ++ [page_two]))
      = (Some (concat (map page_results ([page_one] ++ [page_two]))), sent) ∧
    length sent = length ([page_one] ++ [page_two]) ∧
    map req_url sent = map deals_url (PNone :: map page_after [page_one]).
Proof.
  apply (fetch_all_pages ∅ 5 [page_one] page_two).
  - repeat constructor.
  - reflexivity.
  - simpl. lia.
Defined.

(** X3: an HTTP error ends the fetch without failing it. When the
    remote side serves pages that each carry a cursor and then answers
    with an HTTP error, the fetch returns the deals read so far. *)
Theorem fetch_stops_on_error (environ : gmap string string) (fuel : nat)
    (pre : list deals_page) :
  Forall has_next pre →
  length pre < fuel →
  ∃ sent,
    fetch_all_deals fuel environ (serve pre)
      = (Some (concat (map page_results pre)), sent) ∧
    length sent = S (length pre).
Proof.
  intros Hpre Hfuel.
  destruct (fetch_loop_serve environ pre [] [] fuel [] PNone [] Hpre I eq_refl Hfuel)
    as (new & Hrun & Hurls).
  exists new. unfold fetch_all_deals. simpl in Hrun. rewrite !app_nil_r in Hrun.
  split; [done|].
  apply (f_equal length) in Hurls. rewrite !length_map in Hurls.
  rewrite Hurls. simpl. by rewrite length_map.
Qed.

(** One page with a cursor, then the error. *)
Lemma fetch_stops_on_error_witness :
  ∃ sent,
    fetch_all_deals 5 ∅ (serve [page_one])
      = (Some (concat (map page_results [page_one])), sent) ∧
    length sent = S (length [page_one]).
Proof.
  apply (fetch_stops_on_error ∅ 5 [page_one]).
  - repeat constructor.
  - simpl. lia.
Defined.

(** X4: the fetch has no page limit. Against a remote side that answers
    every request with a page carrying a cursor, the loop is still
    running after any number of requests. *)
Theorem fetch_has_no_page_limit (environ : gmap string string) (net : network)
    (fuel : nat) :
  (∀ sent req, ∃ pg, net sent req = Some pg ∧ has_next pg) →
  (fetch_all_deals fuel environ net).1 = None ∧
  length (fetch_all_deals fuel environ net).2 = fuel.
Proof.
  intros Hnet. unfold fetch_all_deals.
  destruct (fetch_loop_endless environ net fuel [] PNone [] Hnet) as [-> ->]. done.
Qed.

(** A remote side that repeats the same page. *)
Lemma fetch_has_no_page_limit_witness :
  (fetch_all_deals 7 ∅ (λ _ _, Some page_one)).1 = None ∧
  length (fetch_all_deals 7 ∅ (λ _ _, Some page_one)).2 = 7.
Proof.
  apply (fetch_has_no_page_limit ∅ (λ _ _, Some page_one) 7).
  intros sent req. exists page_one. split; reflexivity.
Defined.

(** ** Deal index: membership of the buckets *)

Section IndexMembership.

Implicit Types (d : deal) (ds : list deal) (idx : gmap string (list deal))
               (k w : string).

Lemma dd_append_elem idx k0 d0 k d :
  d ∈ default [] (dd_append idx k0 d0 !! k) ↔
  d ∈ default [] (idx !! k) ∨ (d = d0 ∧ k = k0).
Proof.
  unfold dd_append. destruct (decide (k0 = k)) as [->|Hne].
  - rewrite lookup_insert_eq. simpl. rewrite elem_of_app, list_elem_of_singleton.
    intuition.
  - rewrite lookup_insert_ne by done. intuition congruence.
Qed.

Lemma index_words_elem idx d0 ws k d :
  d ∈ default [] (foldl (λ idx word,
                           if (3 <? len word)%nat then dd_append idx word d0 else idx)
                        idx ws !! k) ↔
  d ∈ default [] (idx !! k) ∨ (d = d0 ∧ k ∈ ws ∧ long_word k = true).
Proof.
  revert idx. induction ws as [|w ws IH]; intros idx; simpl.
  - split; [auto | intros [?|(_ & ?%elem_of_nil & _)]; done].
  - rewrite IH. destruct (3 <? len w)%nat eqn:Hw.
    + rewrite dd_append_elem, elem_of_cons. unfold long_word. split.
      * intros [[?|[-> ->]]|(-> & ? & ?)]; auto 6.
      * intros [?|(-> & [->|?] & ?)]; auto 6.
    + rewrite elem_of_cons. unfold long_word. split.
      * intros [?|(-> & ? & ?)]; auto 6.
      * intros [?|(-> & [->|?] & Hk)]; auto 6. congruence.
Qed.

Lemma index_step_elem idx d0 k d :
  d ∈ default [] (index_step idx d0 !! k) ↔
  d ∈ default [] (idx !! k) ∨ (d = d0 ∧ indexed_under k d0).
Proof.
  unfold index_step. rewrite index_words_elem, dd_append_elem.
  unfold indexed_under. intuition (subst; auto).
Qed.

Lemma build_index_elem_from idx ds k d :
  d ∈ default [] (foldl index_step idx ds !! k) ↔
  d ∈ default [] (idx !! k) ∨ (d ∈ ds ∧ indexed_under k d).
Proof.
  revert idx. induction ds as [|d0 ds IH]; intros idx; simpl.
  - split; [auto | intros [?|[?%elem_of_nil _]]; done].
  - rewrite IH, index_step_elem, elem_of_cons. intuition (subst; auto).
Qed.

Lemma dedup_elem_of d ds : d ∈ dedup_by_id ds → d ∈ ds.
Proof.
  induction ds as [|d0 ds IH]; simpl; [done|].
  intros [->|Hd]%elem_of_cons; [by left|].
  apply list_elem_of_filter in Hd as [_ Hd]. right. auto.
Qed.

Lemma dedup_keeps_ids (x : string) ds :
  x ∈ deal_id <$> ds → x ∈ deal_id <$> dedup_by_id ds.
Proof.
  induction ds as [|d0 ds IH]; simpl; [done|].
  intros [->|Hx]%elem_of_cons; [by left|].
  destruct (decide (x = deal_id d0)) as [->|Hne]; [by left|]. right.
  apply IH, list_elem_of_fmap in Hx as (d & -> & Hd).
  apply list_elem_of_fmap_2, list_elem_of_filter. done.
Qed.

Lemma build_index_elem ds k d :
  d ∈ default [] (build_index ds !! k) ↔ d ∈ ds ∧ indexed_under k d.
Proof.
  unfold build_index. rewrite build_index_elem_from, lookup_empty. simpl.
  split; [intros [?%elem_of_nil|?]; done | auto].
Qed.

End IndexMembership.

(** X5: the buckets of the built index. A deal sits in the bucket of
    [k] exactly when it is one of the fetched deals and [k] is its
    company part or a word of its company part longer than three
    characters. *)
Theorem bucket_membership (all_deals : list deal) (k : string) (d : deal) :
  d ∈ default [] (build_index all_deals !! k) ↔
  d ∈ all_deals ∧ indexed_under k d.
Proof. apply build_index_elem. Qed.

(** X6: a deal is found by its company part. When the lower-cased
    company name equals the company part of a fetched deal, the
    identifier of that deal is among the matched deals. *)
Theorem exact_name_is_matched (all_deals : list deal) (company_name : pyval)
    (d : deal) :
  d ∈ all_deals →
  lower (or_empty company_name) = company_part d →
  deal_id d ∈ deal_id <$> match_deals (build_index all_deals) company_name.
Proof.
  intros Hd Hcn. rewrite match_deals_built.
  assert (d ∈ default [] (build_index all_deals !! lower (or_empty company_name)))
    as Hin.
  { apply build_index_elem. split; [done | by left]. }
  destruct (build_index all_deals !! _) as [b|]; simpl in Hin;
    [|by apply elem_of_nil in Hin].
  by apply dedup_keeps_ids, list_elem_of_fmap_2.
Qed.

(** The company ["ACME CORP"] finds the deal named after it. *)
Lemma exact_name_is_matched_witness :
  deal_id acme_renewal
    ∈ deal_id <$> match_deals (build_index [acme_labs; acme_renewal]) (PStr "ACME CORP").
Proof.
  apply (exact_name_is_matched [acme_labs; acme_renewal] (PStr "ACME CORP") acme_renewal).
  - right. by left.
  - vm_compute; reflexivity.
Defined.

(** X7: every matched deal is relevant. A matched deal is one of the
    fetched deals. After an exact hit it is registered under the
    lower-cased company name; otherwise it is registered under a word of
    that name longer than three characters. In both cases its
    lower-cased name contains the key it was found under. *)
Theorem matched_deals_are_relevant (all_deals : list deal) (company_name : pyval)
    (d : deal) :
  d ∈ match_deals (build_index all_deals) company_name →
  d ∈ all_deals ∧
  match build_index all_deals !! lower (or_empty company_name) with
  | Some _ =>
      indexed_under (lower (or_empty company_name)) d ∧
      substr (lower (or_empty company_name)) (lower (dealname d))
  | None =>
      ∃ w, w ∈ split (lower (or_empty company_name)) ∧ long_word w = true ∧
           indexed_under w d ∧ substr w (lower (dealname d))
  end.
Proof.
  rewrite match_deals_built.
  destruct (build_index all_deals !! lower (or_empty company_name)) as [b|] eqn:Hb.
  - intros Hd%dedup_elem_of.
    assert (d ∈ default [] (build_index all_deals !! lower (or_empty company_name)))
      as Hin by (by rewrite Hb).
    apply build_index_elem in Hin as [Hall Hidx].
    split_and!; [done | done | by apply indexed_under_substr].
  - intros Hd%dedup_elem_of. apply list_elem_of_filter in Hd as [_ Hd].
    unfold keyword_candidates in Hd.
    apply list_elem_of_In, in_concat in Hd as (bk & Hbk & Hd).
    apply list_elem_of_In in Hd. apply list_elem_of_In in Hbk.
    apply list_elem_of_fmap in Hbk as (w & -> & Hw).
    unfold word_bucket in Hd. destruct (long_word w) eqn:Hlong;
      [|by apply elem_of_nil in Hd].
    apply build_index_elem in Hd as [Hall Hidx].
    split; [done|]. exists w. split_and!; [done | done | done |].
    by apply indexed_under_substr.
Qed.

(** The company ["Acme Corp"] against the won deal and the lost one. *)
Lemma matched_deals_are_relevant_witness :
  acme_renewal ∈ [acme_renewal; acme_labs] ∧
  match build_index [acme_renewal; acme_labs] !! lower (or_empty (PStr "Acme Corp")) with
  | Some _ =>
      indexed_under (lower (or_empty (PStr "Acme Corp"))) acme_renewal ∧
      substr (lower (or_empty (PStr "Acme Corp"))) (lower (dealname acme_renewal))
  | None =>
      ∃ w, w ∈ split (lower (or_empty (PStr "Acme Corp"))) ∧ long_word w = true ∧
           indexed_under w acme_renewal ∧ substr w (lower (dealname acme_renewal))
  end.
Proof.
  apply (matched_deals_are_relevant [acme_renewal; acme_labs] (PStr "Acme Corp")).
  assert (match_deals (build_index [acme_renewal; acme_labs]) (PStr "Acme Corp")
          = [acme_renewal]) as -> by (vm_compute; reflexivity).
  by left.
Defined.

(** ** Earliest timestamps *)

Section Earliest.

Lemma ltb_le (a b : string) : String.ltb a b = true → String.le a b.
Proof.
  unfold String.ltb, String.le, String.leb.
  destruct (String.compare a b); done.
Qed.

Lemma ltb_false_le (a b : string) : String.ltb a b = false → String.le b a.
Proof.
  unfold String.ltb, String.le, String.leb. rewrite (String.compare_antisym a b).
  destruct (String.compare b a); done.
Qed.

(** The loop that keeps the smallest truthy value, from any start. *)
Lemma earliest_fold {A} (g : A → pyval) (l : list A) (acc : pyval) :
  let r := foldl (λ a x,
                    let v := g x in
                    if truthy v && (negb (truthy a) || lt (or_empty v) (or_empty a))
                    then v else a) acc l in
  (r = acc ∨ ∃ x, x ∈ l ∧ truthy (g x) = true ∧ r = g x) ∧
  (truthy acc = true → truthy r = true ∧ String.le (or_empty r) (or_empty acc)) ∧
  (∀ x, x ∈ l → truthy (g x) = true →
        truthy r = true ∧ String.le (or_empty r) (or_empty (g x))).
Proof.
  revert acc. induction l as [|y l IH]; intros acc; cbv zeta; cbn [foldl].
  - split_and!; [by left | done | by intros ? ?%elem_of_nil].
  - match goal with |- context [foldl ?f ?a l] => destruct (IH a) as (Hsrc & Hacc & Hall) end.
    cbv zeta in Hsrc, Hacc, Hall.
    destruct (truthy (g y)) eqn:Hy; cbn [andb] in *.
    + destruct (truthy acc) eqn:Ha; cbn [negb orb] in *.
      * destruct (lt (or_empty (g y)) (or_empty acc)) eqn:Hlt.
        -- destruct (Hacc Hy) as [Hr Hle]. split_and!.
           ++ destruct Hsrc as [->|(x & ? & ? & ->)]; right;
                [exists y | exists x]; split_and!; try done; first [by left | by right].
           ++ intros _. split; [done|]. etrans; [exact Hle|]. by apply ltb_le.
           ++ intros x [->|Hx]%elem_of_cons Hgx; [done | by apply Hall].
        -- destruct (Hacc Ha) as [Hr Hle]. split_and!.
           ++ destruct Hsrc as [->|(x & ? & ? & ->)]; [by left|].
              right. exists x. split_and!; try done; by right.
           ++ done.
           ++ intros x [->|Hx]%elem_of_cons Hgx; [|by apply Hall].
              split; [done|]. etrans; [exact Hle|]. by apply ltb_false_le.
      * destruct (Hacc Hy) as [Hr Hle]. split_and!.
        -- destruct Hsrc as [->|(x & ? & ? & ->)]; right;
             [exists y | exists x]; split_and!; try done; first [by left | by right].
        -- done.
        -- intros x [->|Hx]%elem_of_cons Hgx; [done | by apply Hall].
    + split_and!.
      * destruct Hsrc as [->|(x & ? & ? & ->)]; [by left|].
        right. exists x. split_and!; try done; by right.
      * done.
      * intros x [->|Hx]%elem_of_cons Hgx; [congruence | by apply Hall].
Qed.

End Earliest.

(** X8: the first touch of a tenant is the smallest non-empty
    [hs_analytics_first_timestamp] of its matched contacts in string
    order: it is [None] when no contact has one; otherwise it is the
    value of one of the contacts and no contact has a smaller one. *)
Theorem first_touch_is_earliest (cs : list contact) :
  let k := "hs_analytics_first_timestamp" in
  (Forall (empty_at k) cs → first_touch_of cs = PNone) ∧
  (∀ hc, hc ∈ cs → truthy (contact_value k hc) = true →
     truthy (first_touch_of cs) = true ∧
     String.le (or_empty (first_touch_of cs)) (or_empty (contact_value k hc)) ∧
     ∃ hc', hc' ∈ cs ∧ first_touch_of cs = contact_value k hc').
Proof.
  intros k.
  pose proof (earliest_fold (contact_value k) cs PNone) as Hfold.
  cbv zeta in Hfold. change (foldl _ _ _) with (first_touch_of cs) in Hfold.
  destruct Hfold as (Hsrc & _ & Hall). split.
  - intros Hempty. destruct Hsrc as [?|(x & Hx & Hgx & _)]; [done|].
    eapply Forall_forall in Hempty; [|exact Hx].
    unfold empty_at, contact_value in *. congruence.
  - intros hc Hhc Hv. destruct (Hall hc Hhc Hv) as [Hr Hle]. split_and!; [done..|].
    destruct Hsrc as [Heq|(x & Hx & _ & ->)]; [|by exists x].
    rewrite Heq in Hr. discriminate.
Qed.

(** X9: the signup date of a tenant is the smallest non-empty [Created]
    of its users in string order: it is [None] when no user has one;
    otherwise it is the value of one of the users and no user has a
    smaller non-empty one. *)
Theorem cognito_signup_is_earliest (users : list row) :
  (Forall (λ u, truthy (created_value u) = false) users →
     cognito_signup_of users = PNone) ∧
  (∀ u, u ∈ users → truthy (created_value u) = true →
     truthy (cognito_signup_of users) = true ∧
     String.le (or_empty (cognito_signup_of users)) (or_empty (created_value u)) ∧
     ∃ u', u' ∈ users ∧ cognito_signup_of users = created_value u').
Proof.
  pose proof (earliest_fold created_value users PNone) as Hfold.
  cbv zeta in Hfold. change (foldl _ _ _) with (cognito_signup_of users) in Hfold.
  destruct Hfold as (Hsrc & _ & Hall). split.
  - intros Hempty. destruct Hsrc as [?|(x & Hx & Hgx & _)]; [done|].
    eapply Forall_forall in Hempty; [|exact Hx]. cbv beta in Hempty. congruence.
  - intros u Hu Hv. destruct (Hall u Hu Hv) as [Hr Hle]. split_and!; [done..|].
    destruct Hsrc as [Heq|(x & Hx & _ & ->)]; [|by exists x].
    rewrite Heq in Hr. discriminate.
Qed.

(** ** The deal fields of the journey *)

Lemma stage_get_label (code dflt dflt' : pyval) (label : string) :
  stage_get code dflt = PStr label → dflt ≠ PStr label →
  stage_get code dflt' = PStr label.
Proof.
  unfold stage_get. destruct code as [|c]; [done|].
  destruct (STAGE_MAP !! c); done.
Qed.

(** X10: a won deal decides the deal fields. When one of the matched
    deals maps to ["Closed Won"], the journey's [deal_stage] is
    ["Closed Won"] and its amount and dates are those of the first such
    deal, wherever it stands among the matched deals. *)
Theorem won_deal_fills_journey
    (deal_index : gmap string (list deal)) (tid : string) (users : list row)
    (cs : list contact) (company_name : pyval) (d : deal) :
  d ∈ match_deals deal_index company_name →
  closed_won d →
  let j := build_journey deal_index tid users cs company_name in
  ∃ i won,
    first_at closed_won (match_deals deal_index company_name) i won ∧
    deal_stage j = PStr "Closed Won" ∧
    deal_amount j = get (deal_properties won) "amount" ∧
    deal_create_date j = get (deal_properties won) "createdate" ∧
    deal_close_date j = get (deal_properties won) "closedate".
Proof.
  intros Hd Hwon j.
  pose proof (first_passing_spec is_closed_won (match_deals deal_index company_name))
    as Hfirst.
  destruct (first_passing is_closed_won (match_deals deal_index company_name))
    as [won|] eqn:Hf.
  - assert (best_deal_of (match_deals deal_index company_name) = Some won) as Hbest.
    { unfold best_deal_of. rewrite Hf. by destruct (match_deals _ _). }
    destruct Hfirst as (i & Hi). exists i, won.
    apply (first_at_iff _ closed_won) in Hi; [|apply is_closed_won_spec].
    unfold j, build_journey. cbv zeta.
    cbn [deal_stage deal_amount deal_create_date deal_close_date].
    rewrite Hbest. split_and!; try done.
    destruct Hi as (_ & Hw & _). by apply (stage_get_label _ (PStr "Unknown")).
  - apply is_closed_won_spec in Hwon. rewrite (Hfirst d Hd) in Hwon. discriminate.
Qed.

(** The lost deal first, the won deal second. *)
Lemma won_deal_fills_journey_witness :
  let j := build_journey (build_index [acme_labs; acme_renewal]) "t1" [] [] (PStr "acme") in
  ∃ i won,
    first_at closed_won
      (match_deals (build_index [acme_labs; acme_renewal]) (PStr "acme")) i won ∧
    deal_stage j = PStr "Closed Won" ∧
    deal_amount j = get (deal_properties won) "amount" ∧
    deal_create_date j = get (deal_properties won) "createdate" ∧
    deal_close_date j = get (deal_properties won) "closedate".
Proof.
  apply (won_deal_fills_journey (build_index [acme_labs; acme_renewal]) "t1" [] []
           (PStr "acme") acme_renewal).
  - assert (match_deals (build_index [acme_labs; acme_renewal]) (PStr "acme")
            = [acme_labs; acme_renewal]) as -> by (vm_compute; reflexivity).
    right. by left.
  - reflexivity.
Defined.

(** ** Day counts *)

(** X11: the two directions of [days_between]. For two timestamps that
    parse and can be subtracted, both calls return a non-negative
    count. With the earlier timestamp first the count is the number of
    whole days elapsed; with the later timestamp first it is one more,
    unless the two are a whole number of days apart. *)
Theorem days_between_directions (fromisoformat : string → result datetime)
    (a b : string) (da db : datetime) (td : Z) :
  parse_iso fromisoformat a = Ok da →
  parse_iso fromisoformat b = Ok db →
  datetime_sub db da = Ok td →
  (0 <= td)%Z →
  ∃ whole : Z,
    (0 <= whole)%Z ∧ (whole * day_us <= td < (whole + 1) * day_us)%Z ∧
    days_between fromisoformat a b = Ok (Some whole) ∧
    days_between fromisoformat b a =
      Ok (Some (if decide (td = whole * day_us)%Z then whole else whole + 1)%Z).
Proof.
  intros Ha Hb Hsub Htd.
  destruct (days_between_both fromisoformat a b da db td Ha Hb Hsub) as [-> ->].
  exists (td / day_us)%Z. unfold day_us in *.
  pose proof (Z.div_mod td 86400000000 ltac:(lia)) as Hdm.
  pose proof (Z.mod_pos_bound td 86400000000 ltac:(lia)) as Hmod.
  assert (0 <= td / 86400000000)%Z as Hq by (apply Z.div_pos; lia).
  split_and!; [done | lia | lia | by rewrite Z.abs_eq |].
  do 2 f_equal. destruct (decide _) as [Heq|Hne].
  - rewrite Z.div_opp_l_z by lia. lia.
  - rewrite Z.div_opp_l_nz by lia. lia.
Qed.

(** Twelve hours apart on the same day. *)
Lemma days_between_directions_witness :
  ∃ whole : Z,
    (0 <= whole)%Z ∧
    (whole * day_us <= 43200000000 < (whole + 1) * day_us)%Z ∧
    days_between iso_reference "2024-03-01T08:00:00Z" "2024-03-01T20:00:00Z"
      = Ok (Some whole) ∧
    days_between iso_reference "2024-03-01T20:00:00Z" "2024-03-01T08:00:00Z" =
      Ok (Some (if decide (43200000000 = whole * day_us)%Z then whole else whole + 1)%Z).
Proof.
  eapply (days_between_directions iso_reference
            "2024-03-01T08:00:00Z" "2024-03-01T20:00:00Z").
  - vm_compute; reflexivity.
  - vm_compute; reflexivity.
  - vm_compute; reflexivity.
  - lia.
Defined.

(** X12: a timestamp with a UTC offset and one without cannot be
    compared: when both parse, one with an offset and the other
    without, [days_between] returns [None] in both directions. *)
Theorem days_between_mixed_offsets (fromisoformat : string → result datetime)
    (a b : string) (da db : datetime) (off : Z) :
  parse_iso fromisoformat a = Ok da →
  parse_iso fromisoformat b = Ok db →
  utcoffset da = None →
  utcoffset db = Some off →
  days_between fromisoformat a b = Ok None ∧
  days_between fromisoformat b a = Ok None.
Proof.
  intros Ha Hb Hda Hdb. unfold days_between. rewrite Ha, Hb. simpl.
  unfold datetime_sub. by rewrite Hda, Hdb.
Qed.

(** A roster timestamp without offset against a CRM timestamp in UTC. *)
Lemma days_between_mixed_offsets_witness :
  days_between iso_reference "2024-03-05T10:00:00" "2024-03-01T08:00:00Z" = Ok None ∧
  days_between iso_reference "2024-03-01T08:00:00Z" "2024-03-05T10:00:00" = Ok None.
Proof.
  eapply (days_between_mixed_offsets iso_reference
            "2024-03-05T10:00:00" "2024-03-01T08:00:00Z").
  - vm_compute; reflexivity.
  - vm_compute; reflexivity.
  - reflexivity.
  - reflexivity.
Defined.

(** ** CRM client: the contact search *)

Section ContactSearch.

Variables (environ : gmap string string) (net : search_network).

Implicit Types (l batch : list string) (m : gmap string contact)
               (sent : list post_request) (c : contact).






Lemma store_contact_lookup m c k c' :
  store_contact m c !! k = Some c' →
  m !! k = Some c' ∨
  (c' = c ∧ k ≠ "" ∧ k = lower (or_empty (get (contact_properties c) "email"))).
Proof.
  unfold store_contact.
  destruct (String.eqb_spec (lower (or_empty (get (contact_properties c) "email"))) "")
    as [Heq|Hne]; simpl; [auto|].
  destruct (decide (lower (or_empty (get (contact_properties c) "email")) = k))
    as [<-|Hk].
  - rewrite lookup_insert_eq. intros [= <-]. auto.
  - rewrite lookup_insert_ne by done. auto.
Qed.

Lemma store_fold_lookup results m k c' :
  foldl store_contact m results !! k = Some c' →
  m !! k = Some c' ∨
  (c' ∈ results ∧ k ≠ "" ∧ k = lower (or_empty (get (contact_properties c') "email"))).
Proof.
  revert m. induction results as [|c results IH]; intros m; simpl; [auto|].
  intros [Hm|(Hin & Hk)]%IH.
  - apply store_contact_lookup in Hm as [?|(-> & ? & ?)]; [auto|].
    right. split_and!; [by left | done | done].
  - right. split; [by right | done].
Qed.

Lemma search_step_well_keyed l st i :
  well_keyed net st.1 → well_keyed net (search_step environ net l st i).1.
Proof.
  intros Hm. unfold search_step, hubspot_post.
  destruct (net st.2 _) as [results|] eqn:Hnet; simpl; [|done].
  intros k c [Hold|(Hin & Hk & Heq)]%store_fold_lookup; [by apply Hm|].
  split_and!; [done | done | eauto].
Qed.

Lemma search_fold_well_keyed l st starts :
  well_keyed net st.1 → well_keyed net (foldl (search_step environ net l) st starts).1.
Proof.
  revert st. induction starts as [|i starts IH]; intros st Hst; [done|].
  simpl. by apply IH, search_step_well_keyed.
Qed.


End ContactSearch.

Lemma lower_char_idemp (c : ascii) : lower_char (lower_char c) = lower_char c.
Proof. by destruct c as [[] [] [] [] [] [] [] []]. Qed.

Lemma lower_idemp (s : string) : lower (lower s) = lower s.
Proof.
  induction s as [|c s IH]; [done|]. simpl. by rewrite lower_char_idemp, IH.
Qed.


(** X14: the keys of the contact map. Every contact in the result was
    returned by the remote side and is stored under its own e-mail in
    lower case, which is never empty. *)
Theorem search_result_keys (environ : gmap string string) (net : search_network)
    (email_list : list string) (k : string) (c : contact) :
  (search_contacts_by_emails environ net email_list).1 !! k = Some c →
  k ≠ "" ∧ lower k = k ∧
  k = lower (or_empty (get (contact_properties c) "email")) ∧
  ∃ sent req results, net sent req = Some results ∧ c ∈ results.
Proof.
  intros Hk.
  assert (well_keyed net (search_contacts_by_emails environ net email_list).1) as Hwk.
  { apply search_fold_well_keyed. intros ? ?. cbn [fst]. by rewrite lookup_empty. }
  destruct (Hwk k c Hk) as (Hne & Heq & Hsrc).
  split_and!; [done | | done | done].
  rewrite Heq. apply lower_idemp.
Qed.

(** The address [Ann@Example.COM] is stored under [ann@example.com]. *)
Lemma search_result_keys_witness :
  let c := mk_contact "7" [ ("email", PStr "Ann@Example.COM");
                            ("company", PStr "Example Inc") ] in
  "ann@example.com" ≠ "" ∧ lower "ann@example.com" = "ann@example.com" ∧
  "ann@example.com" = lower (or_empty (get (contact_properties c) "email")) ∧
  ∃ sent req results, search_echo sent req = Some results ∧ c ∈ results.
Proof.
  intros c.
  apply (search_result_keys ∅ search_echo ["ann@example.com"]).
  vm_compute; reflexivity.
Defined.



(** ** Per-tenant loop: the company name *)

Section Company.

Variable hs_contacts : gmap string contact.

Implicit Types (emails : list string) (st : list contact * pyval)
               (users : list row) (hc : contact).

(** The contacts matched for a list of e-mails. *)
Lemma lookup_fold_contacts emails st :
  (foldl (lookup_step hs_contacts) st emails).1 =
  st.1 ++ omap (λ e, hs_contacts !! e) emails.
Proof.
  revert st. induction emails as [|e emails IH]; intros st; simpl.
  - by rewrite app_nil_r.
  - rewrite IH. unfold lookup_step. destruct (hs_contacts !! e); simpl; [|done].
    by rewrite <-app_assoc.
Qed.

(** The name found by the loop over the e-mails. *)
Lemma lookup_fold_company emails st :
  let new := omap (λ e, hs_contacts !! e) emails in
  let r := (foldl (lookup_step hs_contacts) st emails).2 in
  (truthy st.2 = true → r = st.2) ∧
  (truthy st.2 = false →
     (Forall (empty_at "company") new → truthy r = false) ∧
     (∀ pre hc post, new = pre ++ hc :: post →
        Forall (empty_at "company") pre →
        truthy (contact_value "company" hc) = true →
        r = contact_value "company" hc)).
Proof.
  revert st. induction emails as [|e emails IH]; intros st; cbv zeta.
  - split; [done|]. intros Hst. split; [done|].
    intros [|??] ? ? Heq; discriminate.
  - cbn [foldl]. specialize (IH (lookup_step hs_contacts st e)). cbv zeta in IH.
    destruct IH as [IHt IHf].
    destruct (hs_contacts !! e) as [hc0|] eqn:He.
    + assert (omap (λ e, hs_contacts !! e) (e :: emails)
              = hc0 :: omap (λ e, hs_contacts !! e) emails) as -> by (simpl; by rewrite He).
      assert ((lookup_step hs_contacts st e).2
              = if negb (truthy st.2) then contact_value "company" hc0 else st.2) as Hstep
        by (unfold lookup_step; by rewrite He).
      rewrite Hstep in IHt, IHf. split.
      * intros Hst. rewrite Hst in IHt. by apply IHt.
      * intros Hst. rewrite Hst in IHt, IHf. cbn [negb] in IHt, IHf.
        destruct (truthy (contact_value "company" hc0)) eqn:Hc0.
        -- split.
           ++ intros [Hh _]%Forall_cons. unfold empty_at, contact_value in *. congruence.
           ++ intros [|hc1 pre] hc post [= <- Heq] Hpre Hhc; [by apply IHt|].
              apply Forall_cons in Hpre as [Hh _].
              unfold empty_at, contact_value in *. congruence.
        -- destruct (IHf eq_refl) as [IHe IHp]. split.
           ++ intros [_ Hnew]%Forall_cons. by apply IHe.
           ++ intros [|hc1 pre] hc post [= <- Heq] Hpre Hhc; [congruence|].
              apply Forall_cons in Hpre as [_ Hpre]. by apply (IHp pre hc post).
    + assert (omap (λ e, hs_contacts !! e) (e :: emails)
              = omap (λ e, hs_contacts !! e) emails) as -> by (simpl; by rewrite He).
      assert (lookup_step hs_contacts st e = st) as Hstep
        by (unfold lookup_step; by rewrite He).
      rewrite Hstep in IHt, IHf |- *. by split.
Qed.

End Company.

(** X16: the company name of a tenant. The resolved name is never
    empty. The [company] of the first matched contact that has one
    wins, whatever the roster says. When no matched contact has a
    company, no user has a usable [Name] and no user's address gives a
    usable domain (free mail domains do not), the name is the
    ["Unknown (...)"] literal built from the first e-mail. *)
Theorem company_name_resolution (hs_contacts : gmap string contact)
    (tid : string) (users : list row) :
  let matched := omap (λ e, hs_contacts !! e) (tenant_emails users) in
  (lookup_contacts hs_contacts (tenant_emails users)).1 = matched ∧
  truthy (resolve_company hs_contacts tid users) = true ∧
  (∀ pre hc post, matched = pre ++ hc :: post →
     Forall (empty_at "company") pre →
     truthy (contact_value "company" hc) = true →
     resolve_company hs_contacts tid users = contact_value "company" hc) ∧
  (Forall (empty_at "company") matched →
   first_name users = None →
   Forall no_usable_domain users →
   resolve_company hs_contacts tid users
     = PStr (unknown_company tid (tenant_emails users))).
Proof.
  intros matched.
  pose proof (lookup_fold_company hs_contacts (tenant_emails users) ([], PNone)) as Hc.
  cbv zeta in Hc. destruct Hc as [_ Hc]. specialize (Hc eq_refl).
  fold matched in Hc. destruct Hc as [Hnone Hfirst].
  change (foldl _ _ _) with (lookup_contacts hs_contacts (tenant_emails users))
    in Hnone, Hfirst.
  split_and!.
  - unfold lookup_contacts. by rewrite lookup_fold_contacts.
  - unfold resolve_company. cbv zeta.
    match goal with
    | |- truthy (if negb (truthy ?c) then _ else _) = true =>
        destruct (truthy c) eqn:Hc; cbn [negb]; [exact Hc | reflexivity]
    end.
  - intros pre hc post Heq Hpre Hhc.
    pose proof (Hfirst pre hc post Heq Hpre Hhc) as Hr.
    rewrite <-Hr in Hhc |- *.
    unfold resolve_company. cbv zeta. repeat (rewrite Hhc; cbn [negb]). done.
  - intros Hempty Hname Hdom. specialize (Hnone Hempty).
    assert (first_domain_name users = None) as Hdn.
    { clear -Hdom. induction Hdom as [|u users Hu _ IH]; [done|].
      simpl. unfold no_usable_domain in Hu. by rewrite Hu. }
    unfold resolve_company. cbv zeta. rewrite Hname, Hdn.
    repeat (rewrite Hnone; cbn [negb]). done.
Qed.

(** Two users at free mail domains and no CRM contact. *)
Lemma company_name_resolution_witness :
  resolve_company ∅ "t9" gmail_users = PStr "Unknown (pat@gmail.com)".
Proof.
  destruct (company_name_resolution ∅ "t9" gmail_users) as (_ & _ & _ & Hunknown).
  apply Hunknown.
  - constructor.
  - reflexivity.
  - repeat constructor.
Defined.

(** ** Per-tenant loop: the source *)

Section Source.

Implicit Types (hc : contact) (cs : list contact).

Lemma first_touch_fold_fst cs (st : pyval * pyval) :
  (foldl first_touch_step st cs).1 =
  foldl (λ first_touch hc,
           let ft := get (contact_properties hc) "hs_analytics_first_timestamp" in
           if truthy ft && (negb (truthy first_touch) ||
                            lt (or_empty ft) (or_empty first_touch))
           then ft else first_touch) st.1 cs.
Proof.
  revert st. induction cs as [|hc cs IH]; intros st; [done|]. simpl.
  rewrite IH. f_equal. unfold first_touch_step.
  by destruct (truthy _ && _).
Qed.

(** The source recorded with the first touch is the source of one of
    the contacts, or still [None]. *)
Lemma first_touch_fold_source cs (st : pyval * pyval) :
  (foldl first_touch_step st cs).2 = st.2 ∨
  ∃ hc, hc ∈ cs ∧
        (foldl first_touch_step st cs).2 = contact_value "hs_analytics_source" hc.
Proof.
  revert st. induction cs as [|hc cs IH]; intros st; [by left|]. simpl.
  destruct (IH (first_touch_step st hc)) as [->|(hc' & Hin & ->)].
  - unfold first_touch_step. destruct (truthy _ && _); simpl; [|by left].
    right. exists hc. split; [by left | done].
  - right. exists hc'. split; [by right | done].
Qed.

Lemma source_loop_skip before pre cs :
  Forall (empty_at "hs_analytics_source") pre →
  source_loop before (pre ++ cs) = source_loop before cs.
Proof.
  induction 1 as [|hc pre Hhc _ IH]; [done|]. simpl.
  unfold empty_at in Hhc. by rewrite Hhc.
Qed.

(** Either no contact has property [k], or there is a first one. *)
Lemma empty_or_first (k : string) cs :
  Forall (empty_at k) cs ∨
  ∃ pre hc post, cs = pre ++ hc :: post ∧ Forall (empty_at k) pre ∧
                 truthy (contact_value k hc) = true.
Proof.
  induction cs as [|hc cs IH]; [by left|].
  destruct (truthy (contact_value k hc)) eqn:Hhc.
  - right. exists [], hc, cs. by split_and!.
  - destruct IH as [Hall|(pre & hc' & post & -> & Hpre & Hhc')].
    + left. by constructor.
    + right. exists (hc :: pre), hc', post. split_and!; [done | by constructor | done].
Qed.

End Source.

(** X17: the source of a tenant. The source and its two details are
    those of the first matched contact with a non-empty
    [hs_analytics_source]; the source is ["Unknown"], with empty
    details, when no contact has one. The source recorded with the
    earliest first touch never decides. *)
Theorem source_is_first_nonempty (cs : list contact) :
  (first_touch_and_source cs).1 = first_touch_of cs ∧
  (source_of cs).1.1 = first_truthy "hs_analytics_source" (PStr "Unknown") cs ∧
  (∀ pre hc post, cs = pre ++ hc :: post →
     Forall (empty_at "hs_analytics_source") pre →
     truthy (contact_value "hs_analytics_source" hc) = true →
     source_of cs = (contact_value "hs_analytics_source" hc,
                     or_empty (contact_value "hs_analytics_source_data_1" hc),
                     or_empty (contact_value "hs_analytics_source_data_2" hc))) ∧
  (Forall (empty_at "hs_analytics_source") cs →
     source_of cs = (PStr "Unknown", "", "")).
Proof.
  assert (∀ pre hc post, cs = pre ++ hc :: post →
     Forall (empty_at "hs_analytics_source") pre →
     truthy (contact_value "hs_analytics_source" hc) = true →
     source_of cs = (contact_value "hs_analytics_source" hc,
                     or_empty (contact_value "hs_analytics_source_data_1" hc),
                     or_empty (contact_value "hs_analytics_source_data_2" hc))) as Hfirst.
  { intros pre hc post Heq Hpre Hhc. unfold source_of.
    rewrite Heq at 2. rewrite source_loop_skip by done. simpl.
    unfold contact_value in Hhc. by rewrite Hhc. }
  assert (Forall (empty_at "hs_analytics_source") cs →
          source_of cs = (PStr "Unknown", "", "")) as Hnone.
  { intros Hempty. unfold source_of.
    rewrite <-(app_nil_r cs) at 2. rewrite source_loop_skip by done. simpl.
    destruct (first_touch_fold_source cs (PNone, PNone)) as [Hs|(hc & Hin & Hs)];
      unfold first_touch_and_source; rewrite Hs; [done|].
    eapply Forall_forall in Hempty; [|exact Hin].
    unfold empty_at, contact_value, or_else in *. by rewrite Hempty. }
  split_and!; [apply first_touch_fold_fst | | done | done].
  destruct (empty_or_first "hs_analytics_source" cs)
    as [Hall|(pre & hc & post & Heq & Hpre & Hhc)].
  - rewrite (Hnone Hall). simpl. by rewrite first_truthy_none.
  - rewrite (Hfirst pre hc post Heq Hpre Hhc). simpl. rewrite Heq.
    by rewrite first_truthy_first.
Qed.

(** ** The journeys of all tenants *)

Section AllJourneys.

Variables (hs_contacts : gmap string contact) (all_deals : list deal).

Implicit Types (tenants : gmap string (list row)) (js : list journey).

Global Instance tenant_le_trans : Transitive tenant_le.
Proof. intros a b c. unfold tenant_le. apply (transitivity (R := String.le)). Qed.

Global Instance tenant_le_total : Total tenant_le.
Proof. intros a b. unfold tenant_le. apply (total String.le). Qed.

Lemma sorted_items_perm tenants : sorted_items tenants ≡ₚ map_to_list tenants.
Proof. apply merge_sort_Permutation. Qed.

Lemma sorted_items_sorted tenants : StronglySorted tenant_le (sorted_items tenants).
Proof. apply StronglySorted_merge_sort; apply _. Qed.

Lemma tenant_journey_id deal_index tid users :
  tenant_id (tenant_journey hs_contacts deal_index tid users) = tid.
Proof. done. Qed.

Lemma StronglySorted_filter {A} (R : relation A) (P : A → Prop)
    `{!∀ x, Decision (P x)} (l : list A) :
  StronglySorted R l → StronglySorted R (filter P l).
Proof.
  induction 1 as [|x l Hl IH Hx]; [constructor|].
  destruct (decide (P x)).
  - rewrite filter_cons_True by done. constructor; [done|].
    apply Forall_forall. intros y [_ Hy]%list_elem_of_filter.
    by eapply Forall_forall in Hx.
  - by rewrite filter_cons_False.
Qed.

End AllJourneys.

(** X18: the list of journeys. There is one journey per tenant group;
    the list is sorted by the sort key, and journeys with the same key
    stand in ascending order of tenant id. *)
Theorem journeys_one_per_tenant (hs_contacts : gmap string contact)
    (all_deals : list deal) (tenants : gmap string (list row)) :
  let journeys := all_journeys hs_contacts all_deals tenants in
  map tenant_id journeys ≡ₚ (map_to_list tenants).*1 ∧
  NoDup (map tenant_id journeys) ∧
  length journeys = size tenants ∧
  StronglySorted key_le journeys ∧
  ∀ v, StronglySorted tenant_id_le (filter (λ j, sort_key j = v) journeys).
Proof.
  intros journeys. unfold journeys, all_journeys. cbv zeta.
  set (build := λ item : string * list row,
         tenant_journey hs_contacts (build_index all_deals) item.1 item.2).
  assert (map tenant_id (sort_journeys (map build (sorted_items tenants)))
          ≡ₚ (map_to_list tenants).*1) as Hperm.
  { rewrite sort_journeys_perm, map_map.
    change (map (λ x, tenant_id (build x)) (sorted_items tenants))
      with ((sorted_items tenants).*1).
    by rewrite sorted_items_perm. }
  split_and!.
  - done.
  - rewrite Hperm. apply NoDup_fst_map_to_list.
  - rewrite <-(length_map tenant_id), Hperm, length_fmap.
    apply length_map_to_list.
  - apply sort_journeys_sorted.
  - intros v. rewrite sort_journeys_stable. apply StronglySorted_filter.
    apply (StronglySorted_fmap build tenant_le tenant_id_le); [done|].
    apply sorted_items_sorted.
Qed.

(** ** The report: timeline *)

Section SortBy.

Context {A : Type} (key : A → string).

Implicit Types (x y : A) (l : list A).

Let le_key (a b : A) : Prop := String.le (key a) (key b).

Lemma insert_by_perm x l : insert_by key x l ≡ₚ x :: l.
Proof.
  induction l as [|y l IH]; simpl; [done|].
  destruct (String.leb _ _); [done|]. rewrite IH. apply Permutation_swap.
Qed.

Lemma sort_by_perm l : sort_by key l ≡ₚ l.
Proof.
  induction l as [|x l IH]; simpl; [done|].
  rewrite insert_by_perm. by f_equiv.
Qed.

Lemma insert_by_sorted x l :
  StronglySorted le_key l → StronglySorted le_key (insert_by key x l).
Proof.
  induction 1 as [|y l Hl IH Hy]; simpl.
  - repeat constructor.
  - destruct (String.leb (key x) (key y)) eqn:Hle.
    + constructor; [by constructor|]. constructor.
      * unfold le_key, String.le. by rewrite Hle.
      * eapply Forall_impl; [exact Hy|]. intros z Hz. unfold le_key in *.
        etrans; [|exact Hz]. unfold String.le. by rewrite Hle.
    + constructor; [done|].
      rewrite (insert_by_perm x l). constructor; [|done].
      unfold le_key. destruct (total String.le (key x) (key y)) as [Hxy|]; [|done].
      unfold String.le in Hxy. by rewrite Hle in Hxy.
Qed.

Lemma sort_by_sorted l : StronglySorted le_key (sort_by key l).
Proof.
  induction l as [|x l IH]; simpl; [constructor|]. by apply insert_by_sorted.
Qed.

Lemma insert_by_stable v x l :
  filter (λ y, key y = v) (insert_by key x l) = filter (λ y, key y = v) (x :: l).
Proof.
  induction l as [|y l IH]; simpl; [done|].
  destruct (String.leb (key x) (key y)) eqn:Hle; [done|].
  assert (key y ≠ key x) as Hne.
  { intros Heq. rewrite Heq in Hle.
    pose proof (reflexivity (R := String.le) (key x)) as Hr.
    unfold String.le in Hr. by rewrite Hle in Hr. }
  destruct (decide (key y = v)) as [Hy|Hy].
  - rewrite (filter_cons_True _ y) by done. rewrite IH.
    rewrite (filter_cons_False _ x) by congruence.
    rewrite (filter_cons_False _ x) by congruence.
    by rewrite (filter_cons_True _ y).
  - rewrite (filter_cons_False _ y) by done. rewrite IH.
    destruct (decide (key x = v)).
    + rewrite !(filter_cons_True _ x) by done. by rewrite filter_cons_False.
    + rewrite !(filter_cons_False _ x) by done. by rewrite filter_cons_False.
Qed.

Lemma sort_by_stable v l :
  filter (λ y, key y = v) (sort_by key l) = filter (λ y, key y = v) l.
Proof.
  induction l as [|x l IH]; simpl; [done|].
  rewrite insert_by_stable.
  destruct (decide (key x = v)).
  - rewrite !(filter_cons_True _ x) by done. by f_equal.
  - by rewrite !(filter_cons_False _ x).
Qed.

End SortBy.

Section Timeline.

Variable fromisoformat : string → result datetime.

Implicit Types (j : journey) (events : list event).

Lemma event_lines_total n i events :
  ∃ lines, event_lines fromisoformat n i events = Ok lines.
Proof.
  revert i. induction events as [|[[date label] detail] events IH]; intros i; simpl.
  - by eexists.
  - destruct (format_date_total fromisoformat (PStr date)) as [shown ->]. simpl.
    destruct (IH (S i)) as [rest ->]. simpl. by eexists.
Qed.

Lemma elapsed_line_total j other text :
  ∃ lines, elapsed_line fromisoformat j other text = Ok lines.
Proof.
  unfold elapsed_line. destruct (truthy (first_touch j) && truthy other); [|by eexists].
  destruct (days_between_total fromisoformat (or_empty (first_touch j)) (or_empty other))
    as [days ->]. simpl. by eexists.
Qed.

Lemma add_event_dates cond label detail events :
  map event_date (add_event cond label detail events) =
  map event_date events ++ map or_empty (List.filter truthy [cond]).
Proof.
  unfold add_event. simpl. destruct (truthy cond); simpl.
  - by rewrite map_app.
  - by rewrite app_nil_r.
Qed.

Lemma events_of_dates j source source_detail :
  map event_date (events_of j source source_detail) =
  map or_empty (List.filter truthy (date_fields j)).
Proof.
  unfold events_of. cbv zeta. rewrite !add_event_dates. unfold date_fields.
  simpl. by destruct (truthy (first_touch j)), (truthy (lead_date j)),
    (truthy (deal_create_date j)), (truthy (opportunity_date j)),
    (truthy (cognito_signup j)), (truthy (customer_date j)),
    (truthy (deal_close_date j)).
Qed.

Lemma map_nil_iff {A B} (f : A → B) (l : list A) : l = [] ↔ map f l = [].
Proof. by destruct l. Qed.

Lemma sort_by_nil {A} (key : A → string) (l : list A) : sort_by key l = [] ↔ l = [].
Proof.
  split; [|by intros ->]. intros Hs.
  apply Permutation_nil_r. rewrite <-Hs. symmetry. apply sort_by_perm.
Qed.

End Timeline.

(** X19: the timeline of a journey. It holds one event per non-empty
    date field of the journey, dated with that field, and it is sorted
    by date in string order; events of equal date keep the order First
    Touch, Lead, Deal Created, Opportunity, Signup, Customer, Deal
    Closed. *)
Theorem timeline_is_sorted (j : journey) (source : pyval) (source_detail : string) :
  let events := timeline_events j source source_detail in
  events ≡ₚ events_of j source source_detail ∧
  StronglySorted event_le events ∧
  (∀ v, filter (λ e, event_date e = v) events
        = filter (λ e, event_date e = v) (events_of j source source_detail)) ∧
  map event_date (events_of j source source_detail)
    = map or_empty (List.filter truthy (date_fields j)) ∧
  map (λ e, e.1.2) (events_of j source source_detail)
    = map snd (List.filter (λ p, truthy p.1)
        (zip (date_fields j)
             [ "First Touch"; "Became Lead"; "Deal Created"; "Became Opportunity";
               "Signed Up for Arda"; "Became Customer"; "Deal Closed" ])).
Proof.
  intros events. unfold events, timeline_events. split_and!.
  - apply sort_by_perm.
  - apply sort_by_sorted.
  - intros v. apply sort_by_stable.
  - apply events_of_dates.
  - unfold events_of, add_event, date_fields. simpl.
    by destruct (truthy (first_touch j)), (truthy (lead_date j)),
      (truthy (deal_create_date j)), (truthy (opportunity_date j)),
      (truthy (cognito_signup j)), (truthy (customer_date j)),
      (truthy (deal_close_date j)).
Qed.

(** X20: the branches of the timeline report. The "No HubSpot data
    found" branch is taken exactly when all seven date fields of the
    journey are empty, the roster signup date included, so its second
    line always reads "Only Cognito signup: N/A". A journey with a
    signup date gets a timeline even without any CRM data. *)
Theorem timeline_report_branches (fromisoformat : string → result datetime)
    (j : journey) (source : pyval) (source_detail : string) :
  (timeline_events j source source_detail = [] ↔
     Forall (λ v, truthy v = false) (date_fields j)) ∧
  (timeline_events j source source_detail = [] →
     timeline_report fromisoformat j source source_detail =
       Ok [ nl +:+ "  JOURNEY TIMELINE: No HubSpot data found for this tenant";
            "    Only Cognito signup: N/A" ]) ∧
  (truthy (cognito_signup j) = true →
     ∃ rest, timeline_report fromisoformat j source source_detail
             = Ok ((nl +:+ "  JOURNEY TIMELINE:") :: rest)).
Proof.
  assert (timeline_events j source source_detail = [] ↔
          Forall (λ v, truthy v = false) (date_fields j)) as Hempty.
  { unfold timeline_events. rewrite sort_by_nil.
    rewrite (map_nil_iff event_date), events_of_dates. unfold date_fields.
    destruct (truthy (first_touch j)) eqn:H1, (truthy (lead_date j)) eqn:H2,
      (truthy (deal_create_date j)) eqn:H3, (truthy (opportunity_date j)) eqn:H4,
      (truthy (cognito_signup j)) eqn:H5, (truthy (customer_date j)) eqn:H6,
      (truthy (deal_close_date j)) eqn:H7;
      simpl; rewrite ?H1, ?H2, ?H3, ?H4, ?H5, ?H6, ?H7; simpl;
      (split; [try discriminate | intros Hall]);
      try (repeat constructor; done);
      repeat match goal with
             | H : Forall _ (_ :: _) |- _ => apply Forall_cons in H as [? H]
             end; congruence. }
  split_and!; [done | |].
  - intros Hnil. unfold timeline_report. rewrite Hnil.
    apply Hempty in Hnil. unfold date_fields in Hnil.
    assert (truthy (cognito_signup j) = false) as Hcs.
    { repeat match goal with
             | H : Forall _ (_ :: _) |- _ => apply Forall_cons in H as [? H]
             end; done. }
    unfold format_date. by rewrite Hcs.
  - intros Hcs. unfold timeline_report.
    assert (timeline_events j source source_detail ≠ []) as Hsome.
    { intros Hev. apply Hempty in Hev. unfold date_fields in Hev.
      repeat match goal with
             | H : Forall _ (_ :: _) |- _ => apply Forall_cons in H as [? H]
             end; congruence. }
    destruct (timeline_events j source source_detail) as [|e events]; [done|].
    destruct (event_lines_total fromisoformat (length (e :: events)) 0 (e :: events))
        as [lines ->].
      destruct (elapsed_line_total fromisoformat j (cognito_signup j)
                  (nl +:+ "    ⏱  First Touch → Signup: ")) as [l1 ->].
      destruct (elapsed_line_total fromisoformat j (deal_close_date j)
                  "    ⏱  First Touch → Deal Close: ") as [l2 ->].
      simpl. by eexists.
Qed.

(** A tenant with a roster signup date and nothing else. *)
Lemma timeline_report_branches_witness :
  ∃ rest, timeline_report iso_reference dated_journey (PStr "Unknown") ""
          = Ok ((nl +:+ "  JOURNEY TIMELINE:") :: rest).
Proof.
  destruct (timeline_report_branches iso_reference dated_journey (PStr "Unknown") "")
    as (_ & _ & Hsignup).
  apply Hsignup. reflexivity.
Defined.

(** ** The report: histogram of the deal stages *)

Section Histogram.

Implicit Types (j : journey) (js : list journey) (counts : gmap string nat)
               (s : string) (order : list string).






End Histogram.


(** ** Best deal: what the selected stage tells *)

(** X22: the best deal is one of the matched deals, and there is none
    only when nothing matched. When it is in a losing stage, every
    matched deal is; when it is not won, no matched deal is. *)
Theorem best_deal_reflects_all (matching_deals : list deal) :
  (best_deal_of matching_deals = None ↔ matching_deals = []) ∧
  (∀ d, best_deal_of matching_deals = Some d →
     d ∈ matching_deals ∧
     (losing d → ∀ d', d' ∈ matching_deals → losing d') ∧
     (¬ closed_won d → ∀ d', d' ∈ matching_deals → ¬ closed_won d')).
Proof.
  unfold best_deal_of.
  pose proof (first_passing_spec is_closed_won matching_deals) as Hcw.
  destruct (first_passing is_closed_won matching_deals) as [won|].
  - destruct Hcw as (i & Hi & Hwon & _). apply is_closed_won_spec in Hwon.
    assert (match matching_deals with
            | [] => Some won
            | _ :: _ => Some won
            end = Some won) as Hsome by (by destruct matching_deals).
    split.
    + split; [by destruct matching_deals|].
      intros ->. by rewrite lookup_nil in Hi.
    + intros d Hd. assert (d = won) as ->.
      { destruct matching_deals; congruence. }
      split_and!; [by eapply list_elem_of_lookup_2 | | done].
      intros Hlose. exfalso. unfold losing, closed_won in *. rewrite Hwon in Hlose.
      by repeat (apply elem_of_cons in Hlose as [?|Hlose]; [done|]);
        apply elem_of_nil in Hlose.
  - assert (∀ d', d' ∈ matching_deals → ¬ closed_won d') as Hnone.
    { intros d' Hd' Hc. apply is_closed_won_spec in Hc.
      rewrite (Hcw d' Hd') in Hc. discriminate. }
    destruct matching_deals as [|d0 ds]; [split; [done | by intros ? [=]]|].
    pose proof (first_passing_spec not_losing (d0 :: ds)) as Hnl.
    destruct (first_passing not_losing (d0 :: ds)) as [d1|].
    + destruct Hnl as (i & Hi & Hd1 & _). apply not_losing_spec in Hd1.
      split; [split; discriminate|].
      intros d [= <-]. split_and!; [by eapply list_elem_of_lookup_2 | done | auto].
    + split; [split; discriminate|].
      intros d [= <-]. split_and!; [by left | | auto].
      intros _ d' Hd'. by apply losing_spec, Hnl.
Qed.
